(** * babel-unique-id: a shallow embedding of the ID derivation

    The development follows the layout of the package:
    - [Hash]     lib/hash.js      (SHA-256, base64 rendering, [shortHash])
    - [Package]  lib/package.js   ([readPackageJson], [findPackageRoot])
    - [Index]    lib/index.js     ([conformOptions], [getIdStrFromPath],
                                   [validatePackage], the exported function)

    JavaScript strings are represented by their UTF-8 byte sequence (Rocq
    [string]); JavaScript numbers by [Z] (the integers a double holds
    exactly). *)

From Stdlib Require Import ZArith List String Ascii Lia Bool.
From stdpp Require Import base option gmap strings pretty.
Import ListNotations.

Local Open Scope Z_scope.

(** ** SHA-256 (FIPS 180-4), the digest behind node's [createHash('sha256')] *)

Module Sha256.

Definition word (x : Z) : Z := x mod 2 ^ 32.
Definition add32 (x y : Z) : Z := word (x + y).
Definition rotr (n x : Z) : Z :=
  Z.lor (Z.shiftr x n) (word (Z.shiftl x (32 - n))).
Definition shr (n x : Z) : Z := Z.shiftr x n.

Definition Ch (x y z : Z) : Z := Z.lxor (Z.land x y) (Z.ldiff z x).
Definition Maj (x y z : Z) : Z :=
  Z.lxor (Z.lxor (Z.land x y) (Z.land x z)) (Z.land y z).
Definition Sigma0 (x : Z) : Z := Z.lxor (Z.lxor (rotr 2 x) (rotr 13 x)) (rotr 22 x).
Definition Sigma1 (x : Z) : Z := Z.lxor (Z.lxor (rotr 6 x) (rotr 11 x)) (rotr 25 x).
Definition sigma0 (x : Z) : Z := Z.lxor (Z.lxor (rotr 7 x) (rotr 18 x)) (shr 3 x).
Definition sigma1 (x : Z) : Z := Z.lxor (Z.lxor (rotr 17 x) (rotr 19 x)) (shr 10 x).

(** The round constants: the first 32 bits of the fractional parts of the
    cube roots of the first 64 primes (0x428a2f98, 0x71374491, ...). *)
Definition K : list Z :=
  [ 1116352408; 1899447441; 3049323471; 3921009573; 961987163; 1508970993;
    2453635748; 2870763221; 3624381080; 310598401; 607225278; 1426881987;
    1925078388; 2162078206; 2614888103; 3248222580; 3835390401; 4022224774;
    264347078; 604807628; 770255983; 1249150122; 1555081692; 1996064986;
    2554220882; 2821834349; 2952996808; 3210313671; 3336571891; 3584528711;
    113926993; 338241895; 666307205; 773529912; 1294757372; 1396182291;
    1695183700; 1986661051; 2177026350; 2456956037; 2730485921; 2820302411;
    3259730800; 3345764771; 3516065817; 3600352804; 4094571909; 275423344;
    430227734; 506948616; 659060556; 883997877; 958139571; 1322822218;
    1537002063; 1747873779; 1955562222; 2024104815; 2227730452; 2361852424;
    2428436474; 2756734187; 3204031479; 3329325298 ].

(** The eight working variables / the intermediate hash value. *)
Record state := State { sa : Z; sb : Z; sc : Z; sd : Z; se : Z; sf : Z; sg : Z; sh : Z }.

(** The initial hash value: the same bits of the square roots of the first
    8 primes (0x6a09e667, 0xbb67ae85, ...). *)
Definition H0 : state :=
  State 1779033703 3144134277 1013904242 2773480762
        1359893119 2600822924 528734635 1541459225.

(** Padding: a 1 bit, zeros up to 56 mod 64 bytes, the bit length on 8 bytes. *)
Definition be_bytes (n : nat) (x : Z) : list Z :=
  map (fun i => Z.land (Z.shiftr x (8 * Z.of_nat i)) 255) (rev (seq 0 n)).

Definition pad (msg : list Z) : list Z :=
  let len := Z.of_nat (length msg) in
  let zeros := Z.to_nat ((55 - len) mod 64) in
  msg ++ 128 :: repeat 0 zeros ++ be_bytes 8 (8 * len).

(** Big-endian words of a byte sequence. *)
Fixpoint words (bs : list Z) : list Z :=
  match bs with
  | b0 :: b1 :: b2 :: b3 :: rest =>
      Z.lor (Z.shiftl b0 24) (Z.lor (Z.shiftl b1 16) (Z.lor (Z.shiftl b2 8) b3))
      :: words rest
  | _ => []
  end.

(** Message schedule, most recent word first: from W(t-1) .. W(t-16) the
    next word is sigma1 W(t-2) + W(t-7) + sigma0 W(t-15) + W(t-16). *)
Definition next_w (ws : list Z) : Z :=
  add32 (add32 (sigma1 (nth 1 ws 0)) (nth 6 ws 0))
        (add32 (sigma0 (nth 14 ws 0)) (nth 15 ws 0)).

Fixpoint extend (n : nat) (ws : list Z) : list Z :=
  match n with
  | O => ws
  | S n' => extend n' (next_w ws :: ws)
  end.

Definition schedule (block : list Z) : list Z := rev (extend 48 (rev block)).

Definition round (s : state) (kw : Z * Z) : state :=
  let '(k, w) := kw in
  let t1 := add32 (add32 (add32 (sh s) (Sigma1 (se s))) (Ch (se s) (sf s) (sg s)))
                  (add32 k w) in
  let t2 := add32 (Sigma0 (sa s)) (Maj (sa s) (sb s) (sc s)) in
  State (add32 t1 t2) (sa s) (sb s) (sc s) (add32 (sd s) t1) (se s) (sf s) (sg s).

Definition compress (h : state) (block : list Z) : state :=
  let s := fold_left round (combine K (schedule block)) h in
  State (add32 (sa h) (sa s)) (add32 (sb h) (sb s)) (add32 (sc h) (sc s))
        (add32 (sd h) (sd s)) (add32 (se h) (se s)) (add32 (sf h) (sf s))
        (add32 (sg h) (sg s)) (add32 (sh h) (sh s)).

Fixpoint blocks (n : nat) (ws : list Z) : list (list Z) :=
  match n with
  | O => []
  | S n' => firstn 16 ws :: blocks n' (skipn 16 ws)
  end.

Definition state_bytes (s : state) : list Z :=
  be_bytes 4 (sa s) ++ be_bytes 4 (sb s) ++ be_bytes 4 (sc s) ++ be_bytes 4 (sd s) ++
  be_bytes 4 (se s) ++ be_bytes 4 (sf s) ++ be_bytes 4 (sg s) ++ be_bytes 4 (sh s).

Definition digest (msg : list Z) : list Z :=
  let ws := words (pad msg) in
  state_bytes (fold_left compress (blocks (length ws / 16) ws) H0).

End Sha256.

(** ** lib/hash.js *)

Module Hash.

(** A JavaScript string as the bytes [createHash(..).update(str)] hashes. *)
Definition bytes_of_string (s : string) : list Z :=
  map (fun c => Z.of_N (N_of_ascii c)) (list_ascii_of_string s).

(** [buffer.toString('base64')]: the standard alphabet, with padding. *)
Definition b64_alphabet : list ascii :=
  list_ascii_of_string
    "ABCDEFGHIJKLMNOPQRSTUVWXYZabcdefghijklmnopqrstuvwxyz0123456789+/".

Definition b64_char (n : Z) : ascii := nth (Z.to_nat n) b64_alphabet "A"%char.

Fixpoint base64 (bs : list Z) : string :=
  match bs with
  | [] => ""
  | [a] =>
      String (b64_char (Z.shiftr a 2))
     (String (b64_char (Z.shiftl (Z.land a 3) 4)) "==")
  | [a; b] =>
      String (b64_char (Z.shiftr a 2))
     (String (b64_char (Z.lor (Z.shiftl (Z.land a 3) 4) (Z.shiftr b 4)))
     (String (b64_char (Z.shiftl (Z.land b 15) 2)) "="))
  | a :: b :: c :: rest =>
      String (b64_char (Z.shiftr a 2))
     (String (b64_char (Z.lor (Z.shiftl (Z.land a 3) 4) (Z.shiftr b 4)))
     (String (b64_char (Z.lor (Z.shiftl (Z.land b 15) 2) (Z.shiftr c 6)))
     (String (b64_char (Z.land c 63)) (base64 rest))))
  end.

(** [sha256Hash(str, true)]: the digest as a buffer of 32 bytes. *)
Definition sha256Buffer (str : string) : list Z :=
  Sha256.digest (bytes_of_string str).

(** [sha256Hash(str)]: the digest as a base64 string. *)
Definition sha256Hash (str : string) : string := base64 (sha256Buffer str).

(** [s.slice(0, len)] for an integer [len]: a negative [len] counts from
    the end of the string. *)
Fixpoint take (n : nat) (s : string) : string :=
  match n, s with
  | S n', String c r => String c (take n' r)
  | _, _ => ""
  end.

Definition slice0 (s : string) (len : Z) : string :=
  if len <? 0 then take (Z.to_nat (Z.max (Z.of_nat (String.length s) + len) 0)) s
  else take (Z.to_nat len) s.

(** [s.replace(/=+$/, '')]: drop the run of [=] that ends the string. *)
Fixpoint strip_trailing_eq (s : string) : string :=
  match s with
  | "" => ""
  | String c r =>
      match strip_trailing_eq r with
      | "" => if Ascii.eqb c "=" then "" else String c ""
      | r' => String c r'
      end
  end%string.

(** [s.replace(/x/g, y)] for single characters [x] and [y]. *)
Fixpoint replace_char (x y : ascii) (s : string) : string :=
  match s with
  | "" => ""
  | String c r => String (if Ascii.eqb c x then y else c) (replace_char x y r)
  end%string.

(** [buffer[0] &= 127] *)
Definition clear_top_bit (buffer : list Z) : list Z :=
  match buffer with
  | [] => []
  | b0 :: rest => Z.land b0 127 :: rest
  end.

Definition shortHash (str : string) (len : Z) : string :=
  let buffer := clear_top_bit (sha256Buffer str) in
  replace_char "/" "$"
    (replace_char "+" "_"
       (strip_trailing_eq (slice0 (base64 buffer) len))).

End Hash.

(** ** JavaScript values *)

(** Symbols: the two made by [createSymbols('babel-unique-id', ..)] when the
    module loads, and the symbols other code makes. *)
Inductive symbol := ID_STRING | ID_COUNTER | Sym (n : N).

(** The two functions [conformOptions] can store as [options.invariant]:
    [tinyInvariant] itself, or the closure that prefixes the plugin name. *)
Inductive func := TinyInvariant | PrefixedInvariant (pluginName : string).

Definition loc := positive.

(** Numbers are the integers ([VNum]) and [NaN]; an object is a reference
    into the store ([VObj]); [VData] is an array or object built by
    [JSON.parse], which the code only tests for truthiness and with
    [isString]. *)
Inductive value :=
| VUndefined
| VNull
| VBool (b : bool)
| VNum (z : Z)
| VNaN
| VStr (s : string)
| VSym (s : symbol)
| VObj (l : loc)
| VFun (f : func)
| VData.

#[global] Instance symbol_eq_dec : EqDecision symbol.
Proof. solve_decision. Defined.
#[global] Instance func_eq_dec : EqDecision func.
Proof. solve_decision. Defined.
#[global] Instance value_eq_dec : EqDecision value.
Proof. solve_decision. Defined.

#[global] Instance symbol_countable : Countable symbol.
Proof.
  refine (inj_countable'
    (fun s => match s with ID_STRING => inl true | ID_COUNTER => inl false | Sym n => inr n end)
    (fun e => match e with inl true => ID_STRING | inl false => ID_COUNTER | inr n => Sym n end) _).
  by intros [].
Defined.

#[global] Instance func_countable : Countable func.
Proof.
  refine (inj_countable'
    (fun f => match f with TinyInvariant => None | PrefixedInvariant p => Some p end)
    (fun e => match e with None => TinyInvariant | Some p => PrefixedInvariant p end) _).
  by intros [].
Defined.

#[global] Instance value_countable : Countable value.
Proof.
  refine (inj_countable'
    (fun v => match v with
              | VUndefined => inl (inl 0%nat) | VNull => inl (inl 1%nat)
              | VNaN => inl (inl 2%nat) | VData => inl (inl 3%nat)
              | VBool b => inl (inr b)
              | VNum z => inr (inl (inl z)) | VStr s => inr (inl (inr s))
              | VSym s => inr (inr (inl s))
              | VObj l => inr (inr (inr (inl l))) | VFun f => inr (inr (inr (inr f)))
              end)
    (fun e => match e with
              | inl (inl 0%nat) => VUndefined | inl (inl 1%nat) => VNull
              | inl (inl 2%nat) => VNaN | inl (inl _) => VData
              | inl (inr b) => VBool b
              | inr (inl (inl z)) => VNum z | inr (inl (inr s)) => VStr s
              | inr (inr (inl s)) => VSym s
              | inr (inr (inr (inl l))) => VObj l | inr (inr (inr (inr f))) => VFun f
              end) _).
  by intros [].
Defined.

(** What a call can throw. [InvariantFailed] carries the message handed to
    [tiny-invariant]; [FsError] the [code] of the error of [fs]. *)
Inductive exn :=
| InvariantFailed (msg : string)
| TypeError
| SyntaxError
| FsError (code : string).

(** A call returns, throws, or has not finished within the steps allowed
    to the directory walk. *)
Inductive outcome (A : Type) :=
| Ok (a : A)
| Throw (e : exn)
| Timeout.
Arguments Ok {A} a.
Arguments Throw {A} e.
Arguments Timeout {A}.

Definition obind {A B} (m : outcome A) (f : A -> outcome B) : outcome B :=
  match m with
  | Ok a => f a
  | Throw e => Throw e
  | Timeout => Timeout
  end.

#[global] Instance outcome_ret : MRet outcome := fun A a => Ok a.
#[global] Instance outcome_bind : MBind outcome := fun A B f m => obind m f.

Module JS.

(** [!!v] *)
Definition truthy (v : value) : bool :=
  match v with
  | VUndefined | VNull | VNaN => false
  | VBool b => b
  | VNum z => negb (z =? 0)
  | VStr s => negb (String.eqb s "")
  | VSym _ | VObj _ | VFun _ | VData => true
  end.

(** [`${v}`]: a Symbol cannot be converted; an object is taken to be a
    plain one, a function prints as its kind. *)
Definition to_string (v : value) : outcome string :=
  match v with
  | VUndefined => Ok "undefined"
  | VNull => Ok "null"
  | VBool true => Ok "true"
  | VBool false => Ok "false"
  | VNum z => Ok (pretty z)
  | VNaN => Ok "NaN"
  | VStr s => Ok s
  | VSym _ => Throw TypeError
  | VObj _ | VData => Ok "[object Object]"
  | VFun _ => Ok "function"
  end%string.

(** [v + 1] *)
Definition plus_one (v : value) : outcome value :=
  match v with
  | VUndefined | VNaN => Ok VNaN
  | VNull => Ok (VNum 1)
  | VBool b => Ok (VNum (if b then 2 else 1))
  | VNum z => Ok (VNum (z + 1))
  | VSym _ => Throw TypeError
  | VStr _ | VObj _ | VFun _ | VData =>
      obind (to_string v) (fun s => Ok (VStr (s +:+ "1")))
  end.

(** The predicates of [is-it-type] the code uses. *)
Definition isString (v : value) : bool :=
  match v with VStr _ => true | _ => false end.
Definition isFullString (v : value) : bool :=
  match v with VStr s => negb (String.eqb s "") | _ => false end.
Definition isBoolean (v : value) : bool :=
  match v with VBool _ => true | _ => false end.
Definition isPositiveInteger (v : value) : bool :=
  match v with VNum z => 0 <? z | _ => false end.
Definition isSymbol (v : value) : bool :=
  match v with VSym _ => true | _ => false end.

(** A string argument of a function of node's [path]: anything else is
    refused with a TypeError. *)
Definition path_arg (v : value) : outcome string :=
  match v with VStr s => Ok s | _ => Throw TypeError end.

(** [s.slice(-1)] and [s.slice(0, -1)] of a string *)
Fixpoint last_char (s : string) : string :=
  match s with
  | "" => ""
  | String c "" => String c ""
  | String _ r => last_char r
  end%string.

Fixpoint drop_last (s : string) : string :=
  match s with
  | "" => ""
  | String c "" => ""
  | String c r => String c (drop_last r)
  end%string.

(** [v.slice(-1)] and [v.slice(0, -1)] of a value: only a string has the
    method. *)
Definition slice_last (v : value) : outcome string :=
  match v with VStr s => Ok (last_char s) | _ => Throw TypeError end.
Definition slice_init (v : value) : outcome string :=
  match v with VStr s => Ok (drop_last s) | _ => Throw TypeError end.

(** The integer [s.slice(0, v)] reads from a defined [v]; [of_string] is
    the conversion of a string. *)
Definition to_integer (of_string : string -> Z) (v : value) : outcome Z :=
  match v with
  | VNum z => Ok z
  | VBool b => Ok (if b then 1 else 0)
  | VStr s => Ok (of_string s)
  | VSym _ => Throw TypeError
  | VUndefined | VNull | VNaN | VObj _ | VFun _ | VData => Ok 0
  end.

End JS.

(** What [JSON.parse] returns. *)
#[local] Unset Elimination Schemes.
Inductive json :=
| JNull
| JBool (b : bool)
| JNum (z : Z)
| JStr (s : string)
| JArr (items : list json)
| JObj (fields : list (string * json)).
#[local] Set Elimination Schemes.

Definition value_of_json (j : json) : value :=
  match j with
  | JNull => VNull
  | JBool b => VBool b
  | JNum z => VNum z
  | JStr s => VStr s
  | JArr _ | JObj _ => VData
  end.

(** The outcome of [fs.readFileSync(path, 'utf8')]. *)
Inductive read_result :=
| ReadOk (text : string)
| ReadError (code : string).

(** The host: node's [path] module for the platform, the file system as
    it stands during the call, and [JSON.parse]. *)
Record host := Host {
  pathSeparator : string;
  dirname : string -> string;
  pathJoin : string -> string -> string;
  pathRelative : string -> string -> string;
  readFileSync : string -> read_result;
  JSON_parse : string -> option json;
  stringToInteger : string -> Z
}.

(** ** The store: objects by reference, and the session *)

(** The [file] of the Babel state: its [opts.filename], its [code], and the
    Map behind [file.get] and [file.set]. *)
Record file_t := File {
  filename : option string;
  code : string;
  slots : gmap value value
}.

Record store := Store {
  objects : gmap loc (gmap string value);
  file : file_t
}.

(** Code that reads and writes a state [S] and may throw. *)
Definition ST (S A : Type) : Type := S -> outcome A * S.

#[global] Instance ST_ret {S} : MRet (ST S) := fun A a s => (Ok a, s).
#[global] Instance ST_bind {S} : MBind (ST S) := fun A B f m s =>
  match m s with
  | (Ok a, s') => f a s'
  | (Throw e, s') => (Throw e, s')
  | (Timeout, s') => (Timeout, s')
  end.

Definition lift {S A} (o : outcome A) : ST S A := fun s => (o, s).

(** [o[key]] of an object given by its properties *)
Definition prop (o : gmap string value) (key : string) : value :=
  default VUndefined (o !! key).

(** Code that works on the properties of one object. *)
Definition this (key : string) : ST (gmap string value) value :=
  fun o => (Ok (prop o key), o).
Definition set_this (key : string) (v : value) : ST (gmap string value) unit :=
  fun o => (Ok tt, <[key := v]> o).

(** Code that works on the store. *)
Definition object_at (σ : store) (l : loc) : gmap string value :=
  default ∅ (objects σ !! l).

Definition new_object (o : gmap string value) : ST store loc :=
  fun σ => let l := fresh (dom (objects σ)) in
           (Ok l, Store (<[l := o]> (objects σ)) (file σ)).

(** The own properties [{...l}] copies. *)
Definition spread (l : loc) : ST store (gmap string value) :=
  fun σ => (Ok (object_at σ l), σ).

Definition with_object {A} (l : loc) (body : ST (gmap string value) A) : ST store A :=
  fun σ => let '(r, o) := body (object_at σ l) in
           (r, Store (<[l := o]> (objects σ)) (file σ)).

Definition get_prop (l : loc) (key : string) : ST store value :=
  fun σ => (Ok (prop (object_at σ l) key), σ).

Definition file_get (key : value) : ST store value :=
  fun σ => (Ok (default VUndefined (slots (file σ) !! key)), σ).

Definition file_set (key v : value) : ST store unit :=
  fun σ => (Ok tt, Store (objects σ)
                         (File (filename (file σ)) (code (file σ))
                               (<[key := v]> (slots (file σ))))).

Definition file_filename : ST store (option string) := fun σ => (Ok (filename (file σ)), σ).
Definition file_code : ST store string := fun σ => (Ok (code (file σ)), σ).

(** [tiny-invariant] *)
Definition tinyInvariant (condition : bool) (msg : string) : outcome unit :=
  if condition then Ok tt else Throw (InvariantFailed msg).

(** A call [f(condition, msg)] of a value as an invariant function. *)
Definition call_invariant (f : value) (condition : bool) (msg : string) : outcome unit :=
  match f with
  | VFun TinyInvariant => tinyInvariant condition msg
  | VFun (PrefixedInvariant pluginName) =>
      tinyInvariant condition (pluginName +:+ ": " +:+ msg)
  | _ => Throw TypeError
  end.

(** ** lib/package.js *)

Module Package.
Section WithHost.
Variable H : host.

(** The object [{name, version, path, pkgPath}] *)
Record props := Props {
  name : value;
  version : value;
  path : string;
  pkgPath : string
}.

(** [pkgObj[key]] for what [JSON.parse] returned, null apart *)
Definition field (pkgObj : json) (key : string) : value :=
  match pkgObj with
  | JObj fields =>
      match List.find (fun kv => String.eqb (fst kv) key) fields with
      | Some (_, j) => value_of_json j
      | None => VUndefined
      end
  | _ => VUndefined
  end.

Definition readPackageJson (path : string) : outcome (option props) :=
  let pkgPath := pathJoin H path "package.json" in
  match readFileSync H pkgPath with
  | ReadError code =>
      if negb (String.eqb code "ENOENT") then Throw (FsError code) else Ok None
  | ReadOk pkgStr =>
      match JSON_parse H pkgStr with
      | None => Throw SyntaxError
      | Some JNull => Throw TypeError
      | Some pkgObj =>
          let name := field pkgObj "name" in
          let version := field pkgObj "version" in
          if negb (JS.truthy name) then Ok None
          else Ok (Some (Props name version path pkgPath))
      end
  end.

(** The walk, with the number of directories it may still visit. *)
Fixpoint findPackageRoot (fuel : nat) (path : string) : outcome (option props) :=
  match fuel with
  | O => Timeout
  | S fuel' =>
      let parentPath := dirname H path in
      if String.eqb parentPath path then Ok None
      else
        match readPackageJson parentPath with
        | Ok (Some props) => Ok (Some props)
        | Ok None => findPackageRoot fuel' parentPath
        | Throw e => Throw e
        | Timeout => Timeout
        end
  end.

End WithHost.
End Package.

(** ** index.js, with [conformOptions] *)

Module Index.
Section WithHost.
Variable H : host.

Definition DEFAULT_ID_LEN : Z := 8.

Definition null_to_undefined (v : value) : value :=
  match v with VNull => VUndefined | _ => v end.

Definition is_undefined (v : value) : bool := bool_decide (v = VUndefined).

(** One turn of the loop over [rootPath], [packageName], [packageVersion]. *)
Definition check_string_option (invariant : func) (opt : string)
  : ST (gmap string value) unit :=
  value ← this opt;
  got ← lift (JS.to_string value);
  lift (call_invariant (VFun invariant)
          (is_undefined value || JS.isFullString value)
          ("options." +:+ opt +:+ " must be a non-empty string if provided - got " +:+ got)).

(** The body of [conformOptions], run on the copy [{...options}]. *)
Definition conform : ST (gmap string value) unit :=
  (fun o => (Ok tt, null_to_undefined <$> o));;
  (* Get plugin name *)
  pluginName ← this "pluginName";
  got ← lift (JS.to_string pluginName);
  lift (tinyInvariant (is_undefined pluginName || JS.isFullString pluginName)
          ("options.pluginName must be non-empty string if provided - got " +:+ got));;
  (* Create invariant function with messages prefixed by plugin name *)
  let invariant :=
    if JS.truthy pluginName
    then PrefixedInvariant (match pluginName with VStr p => p | _ => "" end)
    else TinyInvariant in
  set_this "invariant" (VFun invariant);;
  (* Validate string options *)
  check_string_option invariant "rootPath";;
  check_string_option invariant "packageName";;
  check_string_option invariant "packageVersion";;
  (* Strip trailing slash from rootPath *)
  rootPath ← this "rootPath";
  (if JS.truthy rootPath && negb (bool_decide (rootPath = VStr (pathSeparator H)))
   then last ← lift (JS.slice_last rootPath);
        if String.eqb last (pathSeparator H)
        then init ← lift (JS.slice_init rootPath); set_this "rootPath" (VStr init)
        else mret tt
   else mret tt);;
  isPackage ← this "isPackage";
  (if is_undefined isPackage then set_this "isPackage" (VBool false)
   else got ← lift (JS.to_string isPackage);
        lift (call_invariant (VFun invariant) (JS.isBoolean isPackage)
                ("options.isPackage must be boolean if provided - got " +:+ got)));;
  packageName ← this "packageName";
  packageVersion ← this "packageVersion";
  lift (call_invariant (VFun invariant)
          (eqb (negb (JS.truthy packageName)) (negb (JS.truthy packageVersion)))
          "`packageName` and `packageVersion` options must either be both provided or both omitted");;
  idLength ← this "idLength";
  (if is_undefined idLength then set_this "idLength" (VNum DEFAULT_ID_LEN)
   else got ← lift (JS.to_string idLength);
        lift (call_invariant (VFun invariant) (JS.isPositiveInteger idLength)
                ("options.idLength must be a positive integer if provided - got " +:+ got)));;
  counterKey ← this "counterKey";
  (if is_undefined counterKey then set_this "counterKey" (VSym ID_COUNTER)
   else got ← lift (JS.to_string counterKey);
        lift (call_invariant (VFun invariant) (JS.isSymbol counterKey)
                ("options.pluginName must be a Symbol if provided - got " +:+ got))).

(** [options = {...options}], then the body on the copy; the copy is
    what it returns. *)
Definition conformOptions (options : option loc) : ST store loc :=
  own ← match options with Some l => spread l | None => mret ∅ end;
  copy ← new_object own;
  with_object copy conform;;
  mret copy.

Definition validatePackage (packageProps : option Package.props) (invariant : value)
  : outcome unit :=
  match packageProps with
  | None => Throw TypeError
  | Some p =>
      let name := Package.name p in
      let version := Package.version p in
      let pkgPath := Package.pkgPath p in
      call_invariant invariant (JS.truthy version)
        (pkgPath +:+ " does not contain a version field");;
      call_invariant invariant (JS.isString name)
        (pkgPath +:+ " contains non-string name field");;
      call_invariant invariant (JS.isString version)
        (pkgPath +:+ " contains non-string version field")
  end.

Definition getIdStrFromPath (fuel : nat) (path : string) (options : loc) (invariant : value)
  : ST store value :=
  (* Find name and root path of package (or use options provided by user) *)
  isPackage ← get_prop options "isPackage";
  rootPath ← get_prop options "rootPath";
  packageName ← get_prop options "packageName";
  packageVersion ← get_prop options "packageVersion";
  found ←
    (if JS.truthy rootPath then
       (* Root path provided *)
       if JS.truthy isPackage && negb (JS.truthy packageName) then
         root ← lift (JS.path_arg rootPath);
         packageProps ← lift (Package.readPackageJson H root);
         lift (validatePackage packageProps invariant);;
         match packageProps with
         | Some p => mret (Some (rootPath, Package.name p, Package.name p))
         | None => lift (Throw TypeError)
         end
       else mret (Some (rootPath, packageName, packageVersion))
     else
       (* Root path not provided *)
       packageProps ← lift (Package.findPackageRoot H fuel path);
       match packageProps with
       | None => mret None
       | Some p =>
           let rootPath := VStr (Package.path p) in
           if JS.truthy isPackage && negb (JS.truthy packageName) then
             lift (validatePackage packageProps invariant);;
             mret (Some (rootPath, Package.name p, Package.version p))
           else mret (Some (rootPath, packageName, packageVersion))
       end);
  match found with
  | None => mret VUndefined
  | Some (rootPath, packageName, packageVersion) =>
      (* Get path relative to root *)
      root ← lift (JS.path_arg rootPath);
      let relativePath := pathRelative H root path in
      (* Conform path to Posix-style *)
      let relativePath :=
        if String.eqb (pathSeparator H) "\"
        then Hash.replace_char "\" "/" relativePath
        else relativePath in
      (* Return concatenation of package name/version and relative path *)
      if JS.truthy packageName then
        n ← lift (JS.to_string packageName);
        v ← lift (JS.to_string packageVersion);
        mret (VStr ("package:" +:+ n +:+ "@" +:+ v +:+ ":" +:+ relativePath))
      else mret (VStr ("path:" +:+ relativePath))
  end.

(** The exported function. *)
Definition createId (fuel : nat) (options : option loc) : ST store string :=
  (* Conform options *)
  options ← conformOptions options;
  (* Get cached ID string *)
  cached ← file_get (VSym ID_STRING);
  idStr ←
    (if JS.truthy cached then mret cached
     else
       (* If not cached, calculate ID string from path *)
       path ← file_filename;
       fromPath ←
         match path with
         | Some p =>
             if negb (String.eqb p "") then
               invariant ← get_prop options "invariant";
               getIdStrFromPath fuel p options invariant
             else mret VUndefined
         | None => mret VUndefined
         end;
       idStr ←
         (if JS.truthy fromPath then mret fromPath
          else code ← file_code; mret (VStr ("code:" +:+ Hash.sha256Hash code)));
       file_set (VSym ID_STRING) idStr;;
       mret idStr);
  (* Add counter to ID string *)
  counterKey ← get_prop options "counterKey";
  stored ← file_get counterKey;
  let count := if JS.truthy stored then stored else VNum 0 in
  next ← lift (JS.plus_one count);
  file_set counterKey next;;
  suffix ← lift (JS.to_string count);
  prefix ← lift (JS.to_string idStr);
  let idStr := prefix +:+ ":" +:+ suffix in
  (* Return hash of ID string *)
  idLength ← get_prop options "idLength";
  len ← lift (JS.to_integer (stringToInteger H) idLength);
  mret (Hash.shortHash idStr len).

End WithHost.
End Index.

(** ** index.js, the version without [conformOptions] *)

Module Legacy.
Section WithHost.
Variable H : host.

Definition DEFAULT_ID_LEN : Z := 8.

Definition validatePackage (packageProps : option Package.props) (errorPrefix : string)
  : outcome unit :=
  match packageProps with
  | None => Throw TypeError
  | Some p =>
      let name := Package.name p in
      let version := Package.version p in
      let pkgPath := Package.pkgPath p in
      tinyInvariant (JS.truthy version)
        (errorPrefix +:+ pkgPath +:+ " does not contain a version field");;
      tinyInvariant (JS.isString name)
        (errorPrefix +:+ pkgPath +:+ " contains non-string name field");;
      tinyInvariant (JS.isString version)
        (errorPrefix +:+ pkgPath +:+ " contains non-string version field")
  end.

Definition getIdStrFromPath (fuel : nat) (path : string) (options : loc) (errorPrefix : string)
  : ST store value :=
  (* Find name and root path of package (or use options provided by user) *)
  isPackage ← get_prop options "isPackage";
  rootPath ← get_prop options "rootPath";
  packageName ← get_prop options "packageName";
  packageVersion ← get_prop options "packageVersion";
  found ←
    (if JS.truthy rootPath then
       (* Root path provided *)
       if JS.truthy isPackage && negb (JS.truthy packageName) then
         root ← lift (JS.path_arg rootPath);
         packageProps ← lift (Package.readPackageJson H root);
         lift (validatePackage packageProps errorPrefix);;
         match packageProps with
         | Some p => mret (Some (rootPath, Package.name p, Package.name p))
         | None => lift (Throw TypeError)
         end
       else mret (Some (rootPath, packageName, packageVersion))
     else
       (* Root path not provided *)
       packageProps ← lift (Package.findPackageRoot H fuel path);
       match packageProps with
       | None => mret None
       | Some p =>
           let rootPath := VStr (Package.path p) in
           if JS.truthy isPackage && negb (JS.truthy packageName) then
             lift (validatePackage packageProps errorPrefix);;
             mret (Some (rootPath, Package.name p, Package.version p))
           else mret (Some (rootPath, packageName, packageVersion))
       end);
  match found with
  | None => mret VUndefined
  | Some (rootPath, packageName, packageVersion) =>
      (* Get path relative to root *)
      root ← lift (JS.path_arg rootPath);
      let relativePath := pathRelative H root path in
      (* Conform path to Posix-style *)
      let relativePath :=
        if String.eqb (pathSeparator H) "\"
        then Hash.replace_char "\" "/" relativePath
        else relativePath in
      (* Return concatenation of package name/version and relative path *)
      if JS.truthy packageName then
        n ← lift (JS.to_string packageName);
        v ← lift (JS.to_string packageVersion);
        mret (VStr ("package:" +:+ n +:+ "@" +:+ v +:+ ":" +:+ relativePath))
      else mret (VStr ("path:" +:+ relativePath))
  end.

(** The exported function. *)
Definition createId (fuel : nat) (options : option loc) : ST store string :=
  (* Trim trailing slash from rootPath *)
  options ← match options with Some l => mret l | None => new_object ∅ end;
  rootPath ← get_prop options "rootPath";
  options ←
    (if JS.truthy rootPath && negb (bool_decide (rootPath = VStr (pathSeparator H)))
     then last ← lift (JS.slice_last rootPath);
          if String.eqb last (pathSeparator H)
          then init ← lift (JS.slice_init rootPath);
               own ← spread options;
               new_object (<["rootPath" := VStr init]> own)
          else mret options
     else mret options);
  (* Use default ID length if not provided *)
  idLength ← get_prop options "idLength";
  let idLength := if JS.truthy idLength then idLength else VNum DEFAULT_ID_LEN in
  (* Conform static options *)
  counterKey ← get_prop options "counterKey";
  let counterKey := if JS.truthy counterKey then counterKey else VSym ID_COUNTER in
  pluginName ← get_prop options "pluginName";
  errorPrefix ←
    (if JS.truthy pluginName
     then p ← lift (JS.to_string pluginName); mret (p +:+ ": ")
     else mret "");
  (* Get cached ID string *)
  cached ← file_get (VSym ID_STRING);
  idStr ←
    (if JS.truthy cached then mret cached
     else
       (* If not cached, calculate ID string from path *)
       path ← file_filename;
       fromPath ←
         match path with
         | Some p =>
             if negb (String.eqb p "") then getIdStrFromPath fuel p options errorPrefix
             else mret VUndefined
         | None => mret VUndefined
         end;
       idStr ←
         (if JS.truthy fromPath then mret fromPath
          else code ← file_code; mret (VStr ("code:" +:+ Hash.sha256Hash code)));
       file_set (VSym ID_STRING) idStr;;
       mret idStr);
  (* Add counter to ID string *)
  stored ← file_get counterKey;
  let count := if JS.truthy stored then stored else VNum 0 in
  next ← lift (JS.plus_one count);
  file_set counterKey next;;
  suffix ← lift (JS.to_string count);
  prefix ← lift (JS.to_string idStr);
  let idStr := prefix +:+ ":" +:+ suffix in
  (* Return hash of ID string *)
  len ← lift (JS.to_integer (stringToInteger H) idLength);
  mret (Hash.shortHash idStr len).

End WithHost.
End Legacy.

(** ** A host to run examples on

    POSIX paths in normal form, a file system given as a table from paths
    to reads, and manifests given by their parsed content. *)

Module Example.

Fixpoint rsplit (s : string) : option (string * string) :=
  match s with
  | "" => None
  | String c r =>
      match rsplit r with
      | Some (d, b) => Some (String c d, b)
      | None => if Ascii.eqb c "/" then Some ("", r) else None
      end
  end%string.

Definition posix_dirname (p : string) : string :=
  match rsplit p with
  | Some ("", _) => "/"
  | Some (d, _) => d
  | None => "."
  end%string.

Definition posix_join (a b : string) : string :=
  if String.eqb a "/" then "/" +:+ b else a +:+ "/" +:+ b.

Fixpoint strip_prefix (pre s : string) : option string :=
  match pre, s with
  | "", _ => Some s
  | String a pre', String b s' => if Ascii.eqb a b then strip_prefix pre' s' else None
  | _, _ => None
  end%string.

Definition posix_relative (from to : string) : string :=
  match strip_prefix (posix_join from "") to with
  | Some rest => rest
  | None => to
  end.

Fixpoint lookup_table {A} (t : list (string * A)) (k : string) : option A :=
  match t with
  | [] => None
  | (k', a) :: t' => if String.eqb k k' then Some a else lookup_table t' k
  end.

Definition posix (files : list (string * read_result)) (manifests : list (string * json))
  : host :=
  {| pathSeparator := "/";
     dirname := posix_dirname;
     pathJoin := posix_join;
     pathRelative := posix_relative;
     readFileSync := fun p => default (ReadError "ENOENT") (lookup_table files p);
     JSON_parse := lookup_table manifests;
     stringToInteger := fun _ => 0 |}.

(** A session for [code], not read from a file or read from [path]. *)
Definition session (path : option string) (code : string) : file_t :=
  File path code ∅.

End Example.


(** ** The vocabulary of the statements *)

(** Tokens that are identifiers. *)
Module Token.

Definition is_digit (c : ascii) : bool :=
  let n := nat_of_ascii c in (48 <=? n)%nat && (n <=? 57)%nat.

Definition is_letter (c : ascii) : bool :=
  let n := nat_of_ascii c in
  ((65 <=? n)%nat && (n <=? 90)%nat) || ((97 <=? n)%nat && (n <=? 122)%nat).

(** A character of [A-Za-z0-9_$] *)
Definition is_id_char (c : ascii) : bool :=
  is_letter c || is_digit c || Ascii.eqb c "_" || Ascii.eqb c "$".

Fixpoint all_chars (p : ascii -> bool) (s : string) : bool :=
  match s with
  | "" => true
  | String c r => p c && all_chars p r
  end%string.

Definition starts_with_digit (s : string) : bool :=
  match s with
  | String c _ => is_digit c
  | _ => false
  end%string.

(** A character of the base64 alphabet, and what the two replacements of
    [shortHash] make of a character. *)
Definition is_b64 (c : ascii) : bool := existsb (Ascii.eqb c) Hash.b64_alphabet.

Definition safe (c : ascii) : ascii :=
  let c := if Ascii.eqb c "+" then "_"%char else c in
  if Ascii.eqb c "/" then "$"%char else c.

(** How many characters of [base64 bs] come before the padding, for [n]
    bytes. *)
Fixpoint data_chars (n : nat) : nat :=
  match n with
  | 0 => 0
  | 1 => 2
  | 2 => 3
  | S (S (S m)) => 4 + data_chars m
  end%nat.

End Token.

(** Both versions of the exported function. *)
Inductive version := Conforming | Plain.

Definition createId_of (ver : version) (H : host) (fuel : nat) (options : option loc)
  : ST store string :=
  match ver with
  | Conforming => Index.createId H fuel options
  | Plain => Legacy.createId H fuel options
  end.

(** The properties of the options argument, none when it is omitted. *)
Definition options_of (σ : store) (options : option loc) : gmap string value :=
  match options with
  | Some l => object_at σ l
  | None => ∅
  end.

(** The options argument is an object of the store, or is omitted. *)
Definition options_exist (σ : store) (options : option loc) : Prop :=
  match options with
  | Some l => is_Some (objects σ !! l)
  | None => True
  end.

(** An option as [conformOptions] reads it: null counts as undefined. *)
Definition option_of (P : gmap string value) (key : string) : value :=
  Index.null_to_undefined (prop P key).

(** An option counts as supplied when it is neither undefined nor null. *)
Definition supplied (P : gmap string value) (key : string) : bool :=
  negb (Index.is_undefined (option_of P key)).

Definition valid_string (v : value) : bool :=
  Index.is_undefined v || JS.isFullString v.

(** [file.get(key)], and the store after [file.set(key, v)]. *)
Definition slot (σ : store) (key : value) : value :=
  default VUndefined (slots (file σ) !! key).

Definition set_slot (σ : store) (key v : value) : store :=
  Store (objects σ) (File (filename (file σ)) (code (file σ)) (<[key := v]> (slots (file σ)))).


(** The counter key in effect for the options [P]: the one supplied, else
    the default. *)
Definition counter_key (P : gmap string value) : value :=
  let counterKey := prop P "counterKey" in
  if JS.truthy counterKey then counterKey else VSym ID_COUNTER.



(** An ID string: a string that is not empty. *)
Definition is_id_string (v : value) : Prop := exists s, v = VStr s /\ s <> "".

(** The relative path as [getIdStrFromPath] puts it in the ID string. *)
Definition posix_relative_path (H : host) (root path : string) : string :=
  let relativePath := pathRelative H root path in
  if String.eqb (pathSeparator H) "\"
  then Hash.replace_char "\" "/" relativePath
  else relativePath.

(** The padding [base64] ends with, for [n] bytes. *)
Fixpoint padding (n : nat) : string :=
  match n with
  | 0 => ""
  | 1 => "=="
  | 2 => "="
  | S (S (S m)) => padding m
  end%nat.

(** The [k]-th ancestor of a path: [dirname] applied [k] times. *)
Definition ancestor (H : host) (k : nat) (path : string) : string :=
  Nat.iter k (dirname H) path.

(** A root path without the separator it ends with; the separator alone
    stays. *)
Definition trimmed_root (sep : string) (rootPath : value) : value :=
  match rootPath with
  | VStr r =>
      if negb (String.eqb r "") && negb (String.eqb r sep) && String.eqb (JS.last_char r) sep
      then VStr (JS.drop_last r)
      else rootPath
  | _ => rootPath
  end.

(** What an invariant function of the version with [conformOptions] puts
    before a message: the [errorPrefix] of the other version. *)
Definition prefix_of (f : func) : string :=
  match f with
  | TinyInvariant => ""
  | PrefixedInvariant pluginName => pluginName +:+ ": "
  end.


(** The ID string of a session without a usable path: [code:] and the
    digest of the source text. *)
Definition code_id_string (σ : store) : value :=
  VStr ("code:" +:+ Hash.sha256Hash (code (file σ))).

(** ** Devices of the proofs

    The two versions share their second half. [add_counter] is the code
    from the counter on, [resolve_block] the code that works out the ID
    string of a session that has none, [prelude] what the options come to
    before the session is looked at (the ID length in effect, or the error
    thrown), and [call_shape] a call put together from them. The lemmas
    [createId_run] and [legacy_createId_run] show that the exported
    functions are of this shape. *)

Definition add_counter (of_string : string -> Z) (idStr counterKey idLength : value)
  : ST store string :=
  stored ← file_get counterKey;
  let count := if JS.truthy stored then stored else VNum 0 in
  next ← lift (JS.plus_one count);
  file_set counterKey next;;
  suffix ← lift (JS.to_string count);
  prefix ← lift (JS.to_string idStr);
  len ← lift (JS.to_integer of_string idLength);
  mret (Hash.shortHash (prefix +:+ ":" +:+ suffix) len).

Definition resolve_block (getter : string -> ST store value) : ST store value :=
  path ← file_filename;
  fromPath ←
    match path with
    | Some p => if negb (String.eqb p "") then getter p else mret VUndefined
    | None => mret VUndefined
    end;
  idStr ←
    (if JS.truthy fromPath then mret fromPath
     else code ← file_code; mret (VStr ("code:" +:+ Hash.sha256Hash code)));
  file_set (VSym ID_STRING) idStr;;
  mret idStr.

Definition prelude (ver : version) (H : host) (P : gmap string value) : outcome value :=
  match ver with
  | Conforming =>
      match Index.conform H P with
      | (Ok _, P') => Ok (prop P' "idLength")
      | (Throw e, _) => Throw e
      | (Timeout, _) => Timeout
      end
  | Plain =>
      let rootPath := prop P "rootPath" in
      (if JS.truthy rootPath && negb (bool_decide (rootPath = VStr (pathSeparator H)))
       then last ← JS.slice_last rootPath;
            if String.eqb last (pathSeparator H)
            then JS.slice_init rootPath ≫= λ _, Ok tt
            else Ok tt
       else Ok tt);;
      let pluginName := prop P "pluginName" in
      (if JS.truthy pluginName then JS.to_string pluginName ≫= λ _, Ok tt else Ok tt);;
      let idLength := prop P "idLength" in
      Ok (if JS.truthy idLength then idLength else VNum Legacy.DEFAULT_ID_LEN)
  end.

Definition call_shape (ver : version) (H : host) (P : gmap string value) (σ : store)
    (objs : gmap loc (gmap string value)) (r : outcome value) : outcome string * store :=
  match prelude ver H P with
  | Ok idLength =>
      if JS.truthy (slot σ (VSym ID_STRING))
      then add_counter (stringToInteger H) (slot σ (VSym ID_STRING)) (counter_key P) idLength
             (Store objs (file σ))
      else
        match r with
        | Ok idStr =>
            add_counter (stringToInteger H) idStr (counter_key P) idLength
              (set_slot (Store objs (file σ)) (VSym ID_STRING) idStr)
        | Throw e => (Throw e, Store objs (file σ))
        | Timeout => (Timeout, Store objs (file σ))
        end
  | Throw e => (Throw e, Store objs (file σ))
  | Timeout => (Timeout, Store objs (file σ))
  end.

(** Code that reads the store and returns undefined or an ID string. *)
Definition reads_id (getter : string -> ST store value) : Prop :=
  forall p σ, exists r, getter p σ = (r, σ) /\
    forall v, r = Ok v -> v = VUndefined \/ is_id_string v.

(** Code that leaves every object of the store as it is, and may make new
    ones. *)
Definition grows {A} (m : ST store A) : Prop :=
  forall σ, objects σ ⊆ objects (snd (m σ)).

(** ** Inputs of the examples *)

Module Inputs.

(** An app at [/app] whose manifest names [pkg], version [1.0.0]; the
    manifest at [/bad/package.json] is not JSON, the one at
    [/locked/package.json] cannot be read, the one at [/esm/package.json]
    only says [{type: module}]. *)
Definition app : host :=
  Example.posix
    [ ("/app/package.json", ReadOk "MANIFEST");
      ("/bad/package.json", ReadOk "{");
      ("/locked/package.json", ReadError "EACCES");
      ("/esm/package.json", ReadOk "ESM") ]
    [ ("MANIFEST", JObj [("name", JStr "pkg"); ("version", JStr "1.0.0")]);
      ("ESM", JObj [("type", JStr "module")]) ].

(** The session of the fixture: the source [foo();], no file name. *)
Definition foo : file_t := Example.session None "foo();".

(** A session for a file of the app. *)
Definition index_js : file_t := Example.session (Some "/app/lib/index.js") "foo();".

(** A store with one options object, at location 1. *)
Definition with_options (f : file_t) (options : gmap string value) : store :=
  Store {[ 1%positive := options ]} f.

End Inputs.

(** * Properties *)

Ltac unfold_st :=
  unfold mbind, ST_bind, mret, ST_ret, lift, get_prop, file_get, file_set,
    file_filename, file_code, spread.


Section HashFacts.
Import Hash Token.

Lemma be_bytes_length n x : length (Sha256.be_bytes n x) = n.
Proof. unfold Sha256.be_bytes. by rewrite length_map, length_rev, length_seq. Qed.

Lemma digest_length msg : length (Sha256.digest msg) = 32%nat.
Proof.
  unfold Sha256.digest, Sha256.state_bytes.
  rewrite !length_app, !be_bytes_length. reflexivity.
Qed.

Lemma sha256Buffer_length str : length (sha256Buffer str) = 32%nat.
Proof. apply digest_length. Qed.

Lemma b64_char_is_b64 n : is_b64 (b64_char n) = true.
Proof.
  unfold b64_char.
  destruct (nth_in_or_default (Z.to_nat n) b64_alphabet "A"%char) as [Hin | ->];
    [| reflexivity].
  unfold is_b64. apply existsb_exists. exists (nth (Z.to_nat n) b64_alphabet "A"%char).
  split; [assumption | apply Ascii.eqb_refl].
Qed.

Lemma b64_not_eq c : is_b64 c = true -> Ascii.eqb c "=" = false.
Proof.
  unfold is_b64. intros Hc. apply existsb_exists in Hc as (a & Hin & Heq).
  apply Ascii.eqb_eq in Heq. subst a.
  cbn in Hin. repeat (destruct Hin as [<- | Hin]; [reflexivity |]). destruct Hin.
Qed.

Lemma b64_safe c : is_b64 c = true -> is_id_char (safe c) = true.
Proof.
  unfold is_b64. intros Hc. apply existsb_exists in Hc as (a & Hin & Heq).
  apply Ascii.eqb_eq in Heq. subst a.
  cbn in Hin. repeat (destruct Hin as [<- | Hin]; [reflexivity |]). destruct Hin.
Qed.

Lemma list_ind3 {A} (P : list A -> Prop) :
  P [] -> (forall a, P [a]) -> (forall a b, P [a; b]) ->
  (forall a b c l, P l -> P (a :: b :: c :: l)) ->
  forall l, P l.
Proof.
  intros H0 H1 H2 H3.
  fix IH 1. intros [| a [| b [| c l]]]; [apply H0 | apply H1 | apply H2 | apply H3, IH].
Qed.

Lemma base64_prefix bs :
  forall k, (k <= data_chars (length bs))%nat ->
    String.length (take k (base64 bs)) = k /\
    all_chars is_b64 (take k (base64 bs)) = true.
Proof.
  induction bs as [| a | a b | a b c l IH] using list_ind3; intros k Hk.
  - cbn in Hk. assert (k = 0%nat) as -> by lia. by split.
  - cbn in Hk. destruct k as [| [| [| k]]]; [| | | lia];
      cbn [base64 take String.length all_chars];
      rewrite ?b64_char_is_b64; (split; [try lia | reflexivity]); lia.
  - cbn in Hk. destruct k as [| [| [| [| k]]]]; [| | | | lia];
      cbn [base64 take String.length all_chars];
      rewrite ?b64_char_is_b64; (split; [try lia | reflexivity]); lia.
  - cbn [length data_chars] in Hk.
    destruct k as [| [| [| [| k]]]];
      cbn [base64 take String.length all_chars];
      rewrite ?b64_char_is_b64; try (split; [lia | reflexivity]).
    destruct (IH k) as [Hlen Hall]; [lia |].
    rewrite Hlen, Hall. by split.
Qed.

Lemma base64_head b rest :
  exists r, base64 (b :: rest) = String (b64_char (Z.shiftr b 2)) r.
Proof. destruct rest as [| ? [| ? ?]]; cbn; eauto. Qed.

Lemma strip_trailing_eq_id s :
  all_chars is_b64 s = true -> strip_trailing_eq s = s.
Proof.
  induction s as [| c r IH]; [reflexivity |].
  cbn. intros [Hc Hr]%andb_prop. rewrite (IH Hr).
  destruct r; [| reflexivity]. by rewrite (b64_not_eq c Hc).
Qed.

Lemma replace_char_length x y s :
  String.length (replace_char x y s) = String.length s.
Proof. induction s; cbn; congruence. Qed.

Lemma replace_chars_safe s :
  all_chars is_b64 s = true ->
  all_chars is_id_char (replace_char "/" "$" (replace_char "+" "_" s)) = true.
Proof.
  induction s as [| c r IH]; [reflexivity |].
  cbn [replace_char all_chars]. intros [Hc Hr]%andb_prop.
  rewrite (IH Hr), andb_true_r. apply (b64_safe c Hc).
Qed.

(** The first character: the top bit cleared leaves a group below 32,
    which the alphabet maps to a letter. *)
Lemma low_group_letter b :
  is_letter (safe (b64_char (Z.shiftr (Z.land b 127) 2))) = true.
Proof.
  change 127 with (Z.ones 7). rewrite Z.land_ones, Z.shiftr_div_pow2 by lia.
  assert (0 <= b mod 2 ^ 7 / 2 ^ 2 < 32) as Hr.
  { pose proof (Z.mod_pos_bound b (2 ^ 7) ltac:(lia)).
    split; [apply Z.div_pos; lia | apply Z.div_lt_upper_bound; lia]. }
  unfold b64_char.
  assert (Z.to_nat (b mod 2 ^ 7 / 2 ^ 2) < 32)%nat as Hn by lia.
  revert Hn. generalize (Z.to_nat (b mod 2 ^ 7 / 2 ^ 2)). intros n Hn.
  do 32 (destruct n as [| n]; [reflexivity |]). lia.
Qed.

Lemma letter_not_digit c : is_letter c = true -> is_digit c = false.
Proof.
  unfold is_letter, is_digit. generalize (nat_of_ascii c). intros n.
  rewrite orb_true_iff, !andb_true_iff, andb_false_iff, !Nat.leb_le, !Nat.leb_gt. lia.
Qed.

(** C4: for every input string and every length from 1 to 41, the token of
    [shortHash] has exactly that many characters, all of them in
    [A-Za-z0-9_$], and does not begin with a digit. *)
Theorem shortHash_identifier str len :
  1 <= len <= 41 ->
  String.length (shortHash str len) = Z.to_nat len /\
  all_chars is_id_char (shortHash str len) = true /\
  starts_with_digit (shortHash str len) = false.
Proof.
  intros Hlen. unfold shortHash, slice0.
  destruct (Z.ltb_spec len 0) as [? | _]; [lia |].
  pose proof (sha256Buffer_length str) as H32.
  destruct (sha256Buffer str) as [| b0 rest] eqn:Hbuf; [discriminate |].
  cbn [clear_top_bit].
  destruct (base64_prefix (Z.land b0 127 :: rest) (Z.to_nat len)) as [Hl Hall].
  { cbn [length]. injection H32 as ->. cbn. lia. }
  rewrite (strip_trailing_eq_id _ Hall).
  split; [by rewrite !replace_char_length |].
  split; [by apply replace_chars_safe |].
  destruct (base64_head (Z.land b0 127) rest) as [r ->].
  destruct (Z.to_nat len) as [| n] eqn:Hn; [lia |].
  cbn [take replace_char starts_with_digit].
  apply letter_not_digit. apply low_group_letter.
Qed.
End HashFacts.


Lemma prop_fmap f (P : gmap string value) k :
  f VUndefined = VUndefined -> prop (f <$> P) k = f (prop P k).
Proof. intros Hf. unfold prop. rewrite lookup_fmap. by destruct (P !! k). Qed.

Lemma prop_insert_eq (P : gmap string value) k v : prop (<[k := v]> P) k = v.
Proof. unfold prop. by rewrite lookup_insert_eq. Qed.

Lemma prop_insert_ne (P : gmap string value) k k' v :
  k <> k' -> prop (<[k := v]> P) k' = prop P k'.
Proof. intros. unfold prop. by rewrite lookup_insert_ne. Qed.

Lemma to_string_no_timeout v : JS.to_string v <> Timeout.
Proof. by destruct v as [| | [] | | | | | | |]. Qed.
Lemma tinyInvariant_no_timeout c m : tinyInvariant c m <> Timeout.
Proof. by destruct c. Qed.
Lemma call_invariant_no_timeout f c m : call_invariant f c m <> Timeout.
Proof. by destruct f as [| | | | | | | | [] |], c. Qed.
Lemma slice_last_no_timeout v : JS.slice_last v <> Timeout.
Proof. by destruct v. Qed.
Lemma slice_init_no_timeout v : JS.slice_init v <> Timeout.
Proof. by destruct v. Qed.
Lemma plus_one_no_timeout v : JS.plus_one v <> Timeout.
Proof. by destruct v. Qed.
Lemma to_integer_no_timeout f v : JS.to_integer f v <> Timeout.
Proof. by destruct v. Qed.
Lemma path_arg_no_timeout v : JS.path_arg v <> Timeout.
Proof. by destruct v. Qed.

Lemma tinyInvariant_ok c m u : tinyInvariant c m = Ok u -> c = true.
Proof. by destruct c. Qed.
Lemma call_invariant_ok f c m u : call_invariant f c m = Ok u -> c = true.
Proof. destruct f as [| | | | | | | | [] |], c; done. Qed.

(** Close a goal [m = Timeout -> False] for an operation that always finishes. *)
Ltac never_timeout :=
  solve [ apply to_string_no_timeout | apply tinyInvariant_no_timeout
        | apply call_invariant_no_timeout | apply slice_last_no_timeout
        | apply slice_init_no_timeout | apply plus_one_no_timeout
        | apply to_integer_no_timeout | apply path_arg_no_timeout ].

Ltac unfold_st_in Hyp :=
  unfold mbind, ST_bind, mret, ST_ret, lift, this, set_this in Hyp.

(** The term a stuck run waits for. *)
Ltac scrutinee t :=
  lazymatch t with
  | match ?x with _ => _ end =>
      lazymatch x with
      | match _ with _ => _ end => scrutinee x
      | ?f ?a =>
          lazymatch f with
          | match _ with _ => _ end => scrutinee x
          | _ => x
          end
      | _ => x
      end
  | ?f ?a =>
      lazymatch f with
      | match _ with _ => _ end => scrutinee f
      end
  end.

Ltac refute_timeout :=
  match goal with
  | E : _ = Timeout |- _ => exfalso; revert E; never_timeout
  end.

(** One step of a run whose result is known. *)
Ltac step Hyp :=
  lazymatch type of Hyp with
  | ?lhs = _ =>
      let x := scrutinee lhs in
      let E := fresh "E" in
      destruct x eqn:E; cbv beta iota zeta in Hyp;
      try discriminate Hyp; try refute_timeout
  end.

Ltac finish_timeout Hyp :=
  try discriminate Hyp;
  try (let E := fresh "E" in
       apply pair_equal_spec in Hyp as [E _]; exfalso; revert E; never_timeout).

Ltac ok_facts :=
  repeat match goal with
  | E : tinyInvariant _ _ = Ok _ |- _ => apply tinyInvariant_ok in E
  | E : call_invariant _ _ _ = Ok _ |- _ => apply call_invariant_ok in E
  end.

Lemma is_undefined_true v : Index.is_undefined v = true -> v = VUndefined.
Proof. unfold Index.is_undefined. by intros ?%bool_decide_eq_true. Qed.

Ltac simpl_props :=
  repeat match goal with
    | E : context [prop (<[_ := _]> _) _] |- _ =>
        first [ rewrite prop_insert_eq in E | rewrite prop_insert_ne in E by done ]
    | E : context [prop (_ <$> _) _] |- _ => rewrite prop_fmap in E by done
    | |- context [prop (<[_ := _]> _) _] =>
        first [ rewrite prop_insert_eq | rewrite prop_insert_ne by done ]
    | |- context [prop (_ <$> _) _] => rewrite prop_fmap by done
    end.

Section ConformFacts.
Variable H : host.
Import Index.

Lemma conform_no_timeout P P' : conform H P <> (Timeout, P').
Proof.
  unfold conform, check_string_option. intros Hc. unfold_st_in Hc.
  cbv beta iota zeta in Hc.
  repeat step Hc; finish_timeout Hc.
Qed.

Lemma conform_ok P P' :
  conform H P = (Ok tt, P') ->
  valid_string (option_of P "pluginName") = true /\
  valid_string (option_of P "rootPath") = true /\
  valid_string (option_of P "packageName") = true /\
  valid_string (option_of P "packageVersion") = true /\
  (is_undefined (option_of P "isPackage") || JS.isBoolean (option_of P "isPackage")) = true /\
  JS.truthy (option_of P "packageName") = JS.truthy (option_of P "packageVersion") /\
  (is_undefined (option_of P "idLength") || JS.isPositiveInteger (option_of P "idLength")) = true /\
  option_of P "counterKey" = VUndefined /\
  prop P' "counterKey" = VSym ID_COUNTER /\
  prop P' "idLength" =
    (if is_undefined (option_of P "idLength") then VNum DEFAULT_ID_LEN
     else option_of P "idLength") /\
  prop P' "isPackage" =
    (if is_undefined (option_of P "isPackage") then VBool false
     else option_of P "isPackage") /\
  prop P' "packageName" = option_of P "packageName" /\
  prop P' "packageVersion" = option_of P "packageVersion" /\
  prop P' "pluginName" = option_of P "pluginName" /\
  prop P' "invariant" =
    VFun (match option_of P "pluginName" with
          | VStr p => PrefixedInvariant p
          | _ => TinyInvariant
          end).
Proof.
  unfold conform, check_string_option. intros Hc. unfold_st_in Hc.
  cbv beta iota zeta in Hc.
  rewrite ?prop_insert_ne in Hc by done. rewrite !prop_fmap in Hc by done.
  repeat step Hc.
  all: apply pair_equal_spec in Hc as [Hc <-].
  all: ok_facts.
  all: simpl_props.
  all: fold (option_of P "pluginName") (option_of P "rootPath") (option_of P "packageName")
         (option_of P "packageVersion") (option_of P "isPackage") (option_of P "idLength")
         (option_of P "counterKey") in *.
  all: try (destruct (option_of P "counterKey"); discriminate).
  all: unfold valid_string.
  all: repeat match goal with
         | E : is_undefined (option_of _ "counterKey") = true |- _ =>
             apply is_undefined_true in E
         end.
  all: repeat split; try assumption; try reflexivity.
  all: repeat match goal with E : is_undefined _ = _ |- _ => rewrite E end; try done.
  all: try match goal with
         | E : Bool.eqb (negb ?a) (negb ?b) = true |- ?a = ?b => by destruct a, b
         end.
  all: clear - E0; unfold is_undefined in E0.
  all: destruct (option_of P "pluginName"); case_bool_decide; try discriminate; try done.
  all: cbn in E0 |- *; by rewrite E0.
Qed.
End ConformFacts.


Section StoreFacts.
Variable H : host.

Lemma bind_run {S A B} (m : ST S A) (f : A -> ST S B) s :
  (m ≫= f) s =
    match m s with
    | (Ok a, s') => f a s'
    | (Throw e, s') => (Throw e, s')
    | (Timeout, s') => (Timeout, s')
    end.
Proof. reflexivity. Qed.

Lemma fresh_object_none (σ : store) : objects σ !! fresh (dom (objects σ)) = None.
Proof. apply not_elem_of_dom. apply is_fresh. Qed.

Lemma conformOptions_run options σ :
  Index.conformOptions H options σ =
    (match fst (Index.conform H (options_of σ options)) with
     | Ok _ => Ok (fresh (dom (objects σ)))
     | Throw e => Throw e
     | Timeout => Timeout
     end,
     Store (<[fresh (dom (objects σ)) := snd (Index.conform H (options_of σ options))]>
              (objects σ))
           (file σ)).
Proof.
  unfold Index.conformOptions. rewrite bind_run.
  assert ((match options with Some l => spread l | None => mret ∅ end) σ
          = (Ok (options_of σ options), σ)) as -> by (by destruct options).
  rewrite bind_run. unfold new_object at 1. rewrite bind_run.
  unfold with_object, object_at. cbn [objects file].
  rewrite lookup_insert_eq. cbn [default from_option id].
  destruct (Index.conform H (options_of σ options)) as [[[] | e |] P'];
    cbn [fst snd]; by rewrite insert_insert_eq.
Qed.

Lemma grows_bind {A B} (m : ST store A) (f : A -> ST store B) :
  grows m -> (forall a, grows (f a)) -> grows (m ≫= f).
Proof.
  intros Hm Hf σ. rewrite bind_run. specialize (Hm σ).
  destruct (m σ) as [[a | e |] σ']; cbn [snd] in *; [| done | done].
  etrans; [exact Hm | apply Hf].
Qed.

Lemma grows_ret {A} (a : A) : grows (mret a).
Proof. by intros σ. Qed.
Lemma grows_lift {A} (o : outcome A) : grows (lift o).
Proof. by intros σ. Qed.
Lemma grows_get_prop l k : grows (get_prop l k).
Proof. by intros σ. Qed.
Lemma grows_spread l : grows (spread l).
Proof. by intros σ. Qed.
Lemma grows_file_get k : grows (file_get k).
Proof. by intros σ. Qed.
Lemma grows_file_set k v : grows (file_set k v).
Proof. by intros σ. Qed.
Lemma grows_file_filename : grows file_filename.
Proof. by intros σ. Qed.
Lemma grows_file_code : grows file_code.
Proof. by intros σ. Qed.
Lemma grows_new_object o : grows (new_object o).
Proof. intros σ. cbn. apply insert_subseteq, fresh_object_none. Qed.
Lemma grows_conformOptions options : grows (Index.conformOptions H options).
Proof.
  intros σ. rewrite conformOptions_run. cbn. apply insert_subseteq, fresh_object_none.
Qed.

End StoreFacts.

Ltac grows_step :=
  first
    [ apply grows_ret | apply grows_lift | apply grows_get_prop | apply grows_spread
    | apply grows_file_get | apply grows_file_set | apply grows_file_filename
    | apply grows_file_code | apply grows_new_object | apply grows_conformOptions
    | apply grows_bind; [| intros ?]
    | progress cbv zeta
    | match goal with
      | |- grows (match ?x with _ => _ end) => destruct x
      | |- grows (let (_, _) := ?x in _) => destruct x
      end ].

Section Frame.
Variable H : host.

Lemma grows_getIdStrFromPath fuel path options invariant :
  grows (Index.getIdStrFromPath H fuel path options invariant).
Proof. unfold Index.getIdStrFromPath. repeat grows_step. Qed.

Lemma grows_createId fuel options : grows (Index.createId H fuel options).
Proof.
  unfold Index.createId.
  repeat first
    [ match goal with
      | |- grows (Index.getIdStrFromPath _ _ _ _ _) => apply grows_getIdStrFromPath
      end
    | grows_step ].
Qed.

Lemma grows_legacy_getIdStrFromPath fuel path options prefix :
  grows (Legacy.getIdStrFromPath H fuel path options prefix).
Proof. unfold Legacy.getIdStrFromPath. repeat grows_step. Qed.

Lemma grows_legacy_createId fuel options : grows (Legacy.createId H fuel options).
Proof.
  unfold Legacy.createId.
  repeat first
    [ match goal with
      | |- grows (Legacy.getIdStrFromPath _ _ _ _ _) => apply grows_legacy_getIdStrFromPath
      end
    | grows_step ].
Qed.

(** C9: a call leaves every object of the store as it was, the options
    argument among them, whatever the call comes to: the options are
    normalized on a copy. *)
Theorem options_unchanged ver fuel options σ l P :
  objects σ !! l = Some P ->
  objects (snd (createId_of ver H fuel options σ)) !! l = Some P.
Proof.
  intros Hl. eapply lookup_weaken; [exact Hl |].
  destruct ver; [apply grows_createId | apply grows_legacy_createId].
Qed.
End Frame.


Section Counter.
Variable H : host.

Lemma add_counter_run of_string idStr k idLength σ :
  add_counter of_string idStr k idLength σ =
    let count := if JS.truthy (slot σ k) then slot σ k else VNum 0 in
    match JS.plus_one count with
    | Ok next =>
        match JS.to_string count with
        | Ok suffix =>
            match JS.to_string idStr with
            | Ok prefix =>
                match JS.to_integer of_string idLength with
                | Ok len =>
                    (Ok (Hash.shortHash (prefix +:+ ":" +:+ suffix) len), set_slot σ k next)
                | Throw e => (Throw e, set_slot σ k next)
                | Timeout => (Timeout, set_slot σ k next)
                end
            | Throw e => (Throw e, set_slot σ k next)
            | Timeout => (Timeout, set_slot σ k next)
            end
        | Throw e => (Throw e, set_slot σ k next)
        | Timeout => (Timeout, set_slot σ k next)
        end
    | Throw e => (Throw e, σ)
    | Timeout => (Timeout, σ)
    end.
Proof.
  unfold add_counter. unfold_st. cbv beta iota zeta. fold (slot σ k).
  destruct (JS.plus_one _); [| done | done]. fold (set_slot σ k a).
  destruct (JS.to_string (if JS.truthy (slot σ k) then slot σ k else VNum 0)); [| done | done].
  destruct (JS.to_string idStr); [| done | done].
  by destruct (JS.to_integer of_string idLength).
Qed.

Lemma conform_counterKey P P' :
  Index.conform H P = (Ok tt, P') ->
  prop P' "counterKey" = VSym ID_COUNTER /\ counter_key P = VSym ID_COUNTER.
Proof.
  intros Hc. apply conform_ok in Hc as (_ & _ & _ & _ & _ & _ & _ & Hck & Hck' & _).
  split; [done |]. unfold counter_key. unfold option_of in Hck.
  by destruct (prop P "counterKey").
Qed.

(** A call on a session that has its ID string. *)
Lemma createId_cached fuel options σ v :
  slots (file σ) !! VSym ID_STRING = Some v ->
  JS.truthy v = true ->
  exists objs, objects σ ⊆ objs /\
    Index.createId H fuel options σ =
      match prelude Conforming H (options_of σ options) with
      | Ok idLength =>
          add_counter (stringToInteger H) v (counter_key (options_of σ options)) idLength
            (Store objs (file σ))
      | Throw e => (Throw e, Store objs (file σ))
      | Timeout => (Timeout, Store objs (file σ))
      end.
Proof.
  intros Hslot Hv.
  eexists. split; [apply (grows_conformOptions H options σ) |].
  unfold Index.createId. rewrite bind_run, conformOptions_run. cbn [snd prelude].
  destruct (Index.conform H (options_of σ options)) as [[[] | e |] P'] eqn:Hc;
    cbn [fst snd]; [| done | done].
  destruct (conform_counterKey _ _ Hc) as [Hk ->].
  unfold add_counter. unfold_st. cbv beta iota zeta. cbn [file objects].
  rewrite Hslot. cbn [default from_option id]. rewrite Hv.
  unfold object_at. cbn [objects]. rewrite lookup_insert_eq. cbn [default from_option id].
  rewrite Hk. reflexivity.
Qed.
End Counter.

Section LegacyCounter.
Variable H : host.

Lemma object_at_insert objs f l P : object_at (Store (<[l := P]> objs) f) l = P.
Proof. unfold object_at. cbn. by rewrite lookup_insert_eq. Qed.
End LegacyCounter.


Section Resolve.
Variable H : host.

Lemma id_string_truthy v : is_id_string v -> JS.truthy v = true.
Proof. intros (s & -> & Hs). cbn. by apply negb_true_iff, String.eqb_neq. Qed.

(** [getIdStrFromPath] reads the store and returns undefined or an ID string. *)
Lemma getIdStrFromPath_reads fuel path options invariant σ :
  exists r, Index.getIdStrFromPath H fuel path options invariant σ = (r, σ) /\
    forall v, r = Ok v -> v = VUndefined \/ is_id_string v.
Proof.
  unfold Index.getIdStrFromPath. unfold_st. cbv beta iota zeta.
  repeat case_match; simplify_eq; eexists; (split; [reflexivity |]);
    intros v' Hv'; simplify_eq; auto; right; eexists; split; try reflexivity; done.
Qed.

Lemma legacy_getIdStrFromPath_reads fuel path options prefix σ :
  exists r, Legacy.getIdStrFromPath H fuel path options prefix σ = (r, σ) /\
    forall v, r = Ok v -> v = VUndefined \/ is_id_string v.
Proof.
  unfold Legacy.getIdStrFromPath. unfold_st. cbv beta iota zeta.
  repeat case_match; simplify_eq; eexists; (split; [reflexivity |]);
    intros v' Hv'; simplify_eq; auto; right; eexists; split; try reflexivity; done.
Qed.

Lemma resolve_block_run getter σ :
  reads_id getter ->
  exists r, (forall v, r = Ok v -> is_id_string v) /\
    resolve_block getter σ =
      match r with
      | Ok idStr => (Ok idStr, set_slot σ (VSym ID_STRING) idStr)
      | Throw e => (Throw e, σ)
      | Timeout => (Timeout, σ)
      end.
Proof.
  intros Hget. unfold resolve_block.
  assert (is_id_string (VStr ("code:" +:+ Hash.sha256Hash (code (file σ))))) as Hcode.
  { eexists. split; [reflexivity | done]. }
  rewrite bind_run. unfold file_filename at 1. cbv beta iota.
  destruct (filename (file σ)) as [p |].
  - destruct (negb (p =? "")%string).
    + rewrite bind_run. destruct (Hget p σ) as (r & -> & Hr).
      destruct r as [v | e |].
      * destruct (Hr v eq_refl) as [-> | Hv].
        -- exists (Ok (VStr ("code:" +:+ Hash.sha256Hash (code (file σ))))).
           split; [by intros ? [= <-] | reflexivity].
        -- exists (Ok v). split; [by intros ? [= <-] |].
           rewrite bind_run. by rewrite (id_string_truthy v Hv).
      * exists (Throw e). by split.
      * exists Timeout. by split.
    + exists (Ok (VStr ("code:" +:+ Hash.sha256Hash (code (file σ))))).
      split; [by intros ? [= <-] | reflexivity].
  - exists (Ok (VStr ("code:" +:+ Hash.sha256Hash (code (file σ))))).
    split; [by intros ? [= <-] | reflexivity].
Qed.

(** A call on a session without an ID string, up to the block that works
    it out: the copy of the options is the new object [c]. *)
Lemma createId_uncached_block fuel options σ :
  JS.truthy (slot σ (VSym ID_STRING)) = false ->
  Index.createId H fuel options σ =
    let c := fresh (dom (objects σ)) in
    let σ1 := Store (<[c := snd (Index.conform H (options_of σ options))]> (objects σ))
                (file σ) in
    match fst (Index.conform H (options_of σ options)) with
    | Ok _ =>
        (idStr ← resolve_block (λ p, invariant ← get_prop c "invariant";
                                     Index.getIdStrFromPath H fuel p c invariant);
         add_counter (stringToInteger H) idStr (VSym ID_COUNTER)
           (prop (snd (Index.conform H (options_of σ options))) "idLength")) σ1
    | Throw e => (Throw e, σ1)
    | Timeout => (Timeout, σ1)
    end.
Proof.
  intros Hslot. cbv zeta.
  set (c := fresh (dom (objects σ))).
  unfold Index.createId. rewrite bind_run, conformOptions_run. fold c.
  destruct (Index.conform H (options_of σ options)) as [[[] | e |] P'] eqn:Hc;
    cbn [fst snd]; [| done | done].
  destruct (conform_counterKey H _ _ Hc) as [Hk _].
  destruct (resolve_block_run
              (λ p, invariant ← get_prop c "invariant";
                    Index.getIdStrFromPath H fuel p c invariant)
              (Store (<[c := P']> (objects σ)) (file σ))) as (r & Hr & Hblock).
  { intros p s. rewrite bind_run. unfold get_prop at 1. cbv beta iota.
    apply getIdStrFromPath_reads. }
  rewrite (bind_run (resolve_block _)), Hblock.
  rewrite bind_run. unfold file_get at 1. cbv beta iota. cbn [file].
  fold (slot σ (VSym ID_STRING)). rewrite Hslot.
  rewrite bind_run.
  unfold resolve_block in Hblock. rewrite Hblock.
  destruct r as [idStr | e |]; [| done | done].
  unfold add_counter, set_slot. unfold_st. cbv beta iota zeta. cbn [file objects].
  unfold object_at. cbn [objects]. rewrite lookup_insert_eq. cbn [default from_option id].
  rewrite Hk. reflexivity.
Qed.

Lemma createId_uncached fuel options σ :
  JS.truthy (slot σ (VSym ID_STRING)) = false ->
  exists objs r, objects σ ⊆ objs /\ (forall v, r = Ok v -> is_id_string v) /\
    Index.createId H fuel options σ =
      match prelude Conforming H (options_of σ options) with
      | Ok idLength =>
          match r with
          | Ok idStr =>
              add_counter (stringToInteger H) idStr (counter_key (options_of σ options))
                idLength (set_slot (Store objs (file σ)) (VSym ID_STRING) idStr)
          | Throw e => (Throw e, Store objs (file σ))
          | Timeout => (Timeout, Store objs (file σ))
          end
      | Throw e => (Throw e, Store objs (file σ))
      | Timeout => (Timeout, Store objs (file σ))
      end.
Proof.
  intros Hslot.
  set (σ1 := snd (Index.conformOptions H options σ)).
  set (c := fresh (dom (objects σ))).
  destruct (resolve_block_run
              (λ p, invariant ← get_prop c "invariant";
                    Index.getIdStrFromPath H fuel p c invariant) σ1) as (r & Hr & Hblock).
  { intros p s. rewrite bind_run. unfold get_prop at 1. cbv beta iota.
    apply getIdStrFromPath_reads. }
  exists (objects σ1), r. split; [apply (grows_conformOptions H options σ) |].
  split; [exact Hr |].
  unfold Index.createId. rewrite bind_run.
  subst σ1. rewrite conformOptions_run in *. cbn [snd prelude] in *.
  destruct (Index.conform H (options_of σ options)) as [[[] | e |] P'] eqn:Hc;
    cbn [fst snd] in *; [| done | done].
  destruct (conform_counterKey H _ _ Hc) as [Hk ->].
  rewrite bind_run. unfold file_get at 1. cbv beta iota. cbn [file].
  fold (slot σ (VSym ID_STRING)). rewrite Hslot.
  rewrite bind_run. subst c.
  unfold resolve_block in Hblock. rewrite Hblock.
  destruct r as [idStr | e |]; [| done | done].
  unfold add_counter, set_slot. unfold_st. cbv beta iota zeta. cbn [file objects].
  unfold object_at. cbn [objects]. rewrite lookup_insert_eq. cbn [default from_option id].
  rewrite Hk. reflexivity.
Qed.
End Resolve.


Section Run.
Variable H : host.

Lemma slot_truthy σ k :
  JS.truthy (slot σ k) = true -> slots (file σ) !! k = Some (slot σ k).
Proof. unfold slot. by destruct (slots (file σ) !! k). Qed.

Lemma createId_run fuel options σ :
  exists objs r, objects σ ⊆ objs /\ (forall v, r = Ok v -> is_id_string v) /\
    Index.createId H fuel options σ =
      call_shape Conforming H (options_of σ options) σ objs r.
Proof.
  unfold call_shape.
  destruct (JS.truthy (slot σ (VSym ID_STRING))) eqn:Hslot.
  - destruct (createId_cached H fuel options σ _ (slot_truthy _ _ Hslot) Hslot)
      as (objs & Hsub & ->).
    exists objs, Timeout. by repeat split.
  - destruct (createId_uncached H fuel options σ Hslot) as (objs & r & Hsub & Hr & ->).
    by exists objs, r.
Qed.

(** The version without [conformOptions], up to the block that works out
    the ID string: [c] is the options object the block reads. *)
Lemma legacy_createId_block fuel options σ :
  exists objs c errorPrefix, objects σ ⊆ objs /\
    Legacy.createId H fuel options σ =
      match prelude Plain H (options_of σ options) with
      | Ok idLength =>
          if JS.truthy (slot σ (VSym ID_STRING))
          then add_counter (stringToInteger H) (slot σ (VSym ID_STRING))
                 (counter_key (options_of σ options)) idLength (Store objs (file σ))
          else
            (idStr ← resolve_block (λ p, Legacy.getIdStrFromPath H fuel p c errorPrefix);
             add_counter (stringToInteger H) idStr (counter_key (options_of σ options))
               idLength) (Store objs (file σ))
      | Throw e => (Throw e, Store objs (file σ))
      | Timeout => (Timeout, Store objs (file σ))
      end.
Proof.
  unfold Legacy.createId. rewrite bind_run.
  set (P := options_of σ options).
  assert (exists l0 σ0,
    (match options with Some l => mret l | None => new_object ∅ end) σ = (Ok l0, σ0) /\
    objects σ ⊆ objects σ0 /\ file σ0 = file σ /\ object_at σ0 l0 = P)
    as (l0 & σ0 & -> & Hsub0 & Hfile0 & Hobj0).
  { destruct options as [l |].
    - exists l, σ. by repeat split.
    - eexists _, _. split; [reflexivity |]. split; [apply grows_new_object |].
      split; [done |]. apply object_at_insert. }
  rewrite bind_run. unfold get_prop at 1. cbv beta iota. rewrite Hobj0.
  match goal with
  | |- ∃ objs c errorPrefix, _ ∧ (?m ≫= ?k) σ0 = _ => set (rest := k); set (copy := m)
  end.
  assert (forall c σc, file σc = file σ -> objects σ ⊆ objects σc ->
            prop (object_at σc c) "idLength" = prop P "idLength" ->
            prop (object_at σc c) "counterKey" = prop P "counterKey" ->
            prop (object_at σc c) "pluginName" = prop P "pluginName" ->
            exists objs c' errorPrefix, objects σ ⊆ objs /\
              rest c σc =
                match
                  (if JS.truthy (prop P "pluginName")
                   then JS.to_string (prop P "pluginName") ≫= λ _, Ok tt else Ok tt);;
                  Ok (if JS.truthy (prop P "idLength") then prop P "idLength"
                      else VNum Legacy.DEFAULT_ID_LEN)
                with
                | Ok idLength =>
                    if JS.truthy (slot σ (VSym ID_STRING))
                    then add_counter (stringToInteger H) (slot σ (VSym ID_STRING))
                           (counter_key P) idLength (Store objs (file σ))
                    else
                      (idStr ← resolve_block
                                 (λ p, Legacy.getIdStrFromPath H fuel p c' errorPrefix);
                       add_counter (stringToInteger H) idStr (counter_key P) idLength)
                        (Store objs (file σ))
                | Throw e => (Throw e, Store objs (file σ))
                | Timeout => (Timeout, Store objs (file σ))
                end) as Hrest.
  { intros c [objs f] Hf Hsub Hil Hck Hpn. cbn in Hf. subst f.
    exists objs, c.
    assert (exists prefix : outcome string,
      (if JS.truthy (prop P "pluginName")
       then lift (JS.to_string (prop P "pluginName")) ≫= λ p, mret (p +:+ ": ")
       else mret "") (Store objs (file σ)) = (prefix, Store objs (file σ)) /\
      ((if JS.truthy (prop P "pluginName")
        then JS.to_string (prop P "pluginName") ≫= λ _, Ok tt else Ok tt);;
       Ok (if JS.truthy (prop P "idLength") then prop P "idLength"
           else VNum Legacy.DEFAULT_ID_LEN)) =
      prefix ≫= λ _, Ok (if JS.truthy (prop P "idLength") then prop P "idLength"
                         else VNum Legacy.DEFAULT_ID_LEN))
      as (prefix & Hprefix & ->).
    { destruct (JS.truthy (prop P "pluginName")).
      - destruct (JS.to_string (prop P "pluginName")) as [p | e |];
          [exists (Ok (p +:+ ": ")) | exists (Throw e) | exists Timeout]; by split.
      - exists (Ok ""). by split. }
    unfold rest. do 3 (rewrite bind_run; unfold get_prop at 1; cbv beta iota).
    rewrite Hil, Hck, Hpn. rewrite bind_run, Hprefix.
    destruct prefix as [errorPrefix | e |]; cbn [mbind outcome_bind obind];
      [exists errorPrefix | by exists "" | by exists ""].
    split; [done |].
    rewrite bind_run. unfold file_get at 1. cbv beta iota. cbn [file].
    fold (slot σ (VSym ID_STRING)).
    by destruct (JS.truthy (slot σ (VSym ID_STRING))). }
  clearbody rest.
  assert (σ0 = Store (objects σ0) (file σ)) as Hσ0 by (destruct σ0; cbn in *; congruence).
  unfold prelude. cbv zeta. rewrite bind_run. subst copy.
  destruct (JS.truthy (prop P "rootPath") && _) eqn:Hc.
  - rewrite bind_run. unfold lift at 1.
    destruct (JS.slice_last (prop P "rootPath")) as [last | e |] eqn:Hl;
      cbn [mbind outcome_bind obind].
    + destruct (last =? pathSeparator H)%string eqn:Hs.
      * rewrite bind_run. unfold lift at 1.
        destruct (JS.slice_init (prop P "rootPath")) as [init | e |] eqn:Hi;
          cbn [mbind outcome_bind obind].
        -- rewrite bind_run. unfold spread at 1. rewrite Hobj0.
           unfold new_object.
           apply Hrest; cbn [file objects]; rewrite ?object_at_insert;
             rewrite ?prop_insert_ne by done; try done.
           etrans; [exact Hsub0 | apply insert_subseteq, fresh_object_none].
        -- exists (objects σ0), 1%positive, "". by rewrite <- Hσ0.
        -- exists (objects σ0), 1%positive, "". by rewrite <- Hσ0.
      * apply Hrest; by rewrite ?Hobj0.
    + exists (objects σ0), 1%positive, "". by rewrite <- Hσ0.
    + exists (objects σ0), 1%positive, "". by rewrite <- Hσ0.
  - apply Hrest; by rewrite ?Hobj0.
Qed.

Lemma legacy_createId_run fuel options σ :
  exists objs r, objects σ ⊆ objs /\ (forall v, r = Ok v -> is_id_string v) /\
    Legacy.createId H fuel options σ =
      call_shape Plain H (options_of σ options) σ objs r.
Proof.
  destruct (legacy_createId_block fuel options σ)
    as (objs & c & errorPrefix & Hsub & ->).
  destruct (resolve_block_run (λ p, Legacy.getIdStrFromPath H fuel p c errorPrefix)
              (Store objs (file σ))) as (r & Hr & Hblock).
  { intros p s. apply legacy_getIdStrFromPath_reads. }
  exists objs, r. split; [done |]. split; [done |].
  unfold call_shape.
  destruct (prelude Plain H (options_of σ options)); [| done | done].
  destruct (JS.truthy (slot σ (VSym ID_STRING))); [done |].
  rewrite bind_run, Hblock. by destruct r.
Qed.

Lemma createId_of_run ver fuel options σ :
  exists objs r, objects σ ⊆ objs /\ (forall v, r = Ok v -> is_id_string v) /\
    createId_of ver H fuel options σ = call_shape ver H (options_of σ options) σ objs r.
Proof. destruct ver; [apply createId_run | apply legacy_createId_run]. Qed.
End Run.


Section Sessions.
Variable H : host.

Lemma slot_set_eq σ k v : slot (set_slot σ k v) k = v.
Proof. unfold slot, set_slot. cbn. by rewrite lookup_insert_eq. Qed.

Lemma slot_set_ne σ k k' v : k <> k' -> slot (set_slot σ k v) k' = slot σ k'.
Proof. intros. unfold slot, set_slot. cbn. by rewrite lookup_insert_ne. Qed.

Lemma slot_store objs objs' f k : slot (Store objs f) k = slot (Store objs' f) k.
Proof. reflexivity. Qed.




Lemma add_counter_keeps of_string idStr k idLength σ k' :
  k <> k' ->
  slot (snd (add_counter of_string idStr k idLength σ)) k' = slot σ k'.
Proof.
  intros Hk. rewrite add_counter_run. cbv zeta.
  repeat case_match; cbn [snd]; by rewrite ?slot_set_ne.
Qed.




Lemma options_exist_grows σ σ' options :
  options_exist σ options -> objects σ ⊆ objects σ' -> options_exist σ' options.
Proof.
  destruct options as [l |]; [| done]. intros [P HP] Hsub.
  exists P. by apply (lookup_weaken _ _ _ _ HP Hsub).
Qed.





End Sessions.


Section Throws.
Variable H : host.

Lemma conform_cases P :
  (exists P', Index.conform H P = (Ok tt, P')) \/
  (exists e, fst (Index.conform H P) = Throw e).
Proof.
  destruct (Index.conform H P) as [[[] | e |] P'] eqn:E; [left | right | exfalso]; eauto.
  by apply conform_no_timeout in E.
Qed.

Lemma createId_conform_throws fuel options σ e :
  fst (Index.conform H (options_of σ options)) = Throw e ->
  fst (Index.createId H fuel options σ) = Throw e /\
  file (snd (Index.createId H fuel options σ)) = file σ.
Proof.
  intros He. unfold Index.createId. rewrite bind_run, conformOptions_run, He. by split.
Qed.

Lemma valid_string_truthy P key :
  valid_string (option_of P key) = true ->
  JS.truthy (option_of P key) = supplied P key.
Proof.
  unfold valid_string, supplied, Index.is_undefined.
  destruct (option_of P key); case_bool_decide; try done.
Qed.

(** C8: when exactly one of [packageName] and [packageVersion] is supplied,
    the call throws, returns no token, and leaves the session as it was. *)
Theorem package_pairing_throws fuel l σ :
  supplied (object_at σ l) "packageName" <> supplied (object_at σ l) "packageVersion" ->
  exists e,
    fst (Index.createId H fuel (Some l) σ) = Throw e /\
    file (snd (Index.createId H fuel (Some l) σ)) = file σ.
Proof.
  intros Hone.
  destruct (conform_cases (object_at σ l)) as [[P' HP'] | [e He]].
  - exfalso. apply conform_ok in HP' as (_ & _ & Hn & Hv & _ & Hpair & _).
    apply Hone. by rewrite <- !valid_string_truthy.
  - exists e. by apply (createId_conform_throws fuel (Some l)).
Qed.

(** C10: a Symbol given as [counterKey] is not accepted: the call throws
    (the message of the check is built first, and a Symbol has no string
    conversion), returns no token, and leaves the session as it was. *)
Theorem symbol_counterKey_throws fuel l σ s :
  prop (object_at σ l) "counterKey" = VSym s ->
  exists e,
    fst (Index.createId H fuel (Some l) σ) = Throw e /\
    file (snd (Index.createId H fuel (Some l) σ)) = file σ.
Proof.
  intros Hs.
  destruct (conform_cases (object_at σ l)) as [[P' HP'] | [e He]].
  - exfalso. apply conform_ok in HP' as (_ & _ & _ & _ & _ & _ & _ & Hck & _).
    unfold option_of in Hck. by rewrite Hs in Hck.
  - exists e. by apply (createId_conform_throws fuel (Some l)).
Qed.

(** C2, amended: when [idLength] is supplied and is not a positive integer,
    the call throws, returns no token, and leaves the session as it was.
    No upper bound is checked. *)
Theorem idLength_not_positive_throws fuel l σ :
  supplied (object_at σ l) "idLength" = true ->
  JS.isPositiveInteger (prop (object_at σ l) "idLength") = false ->
  exists e,
    fst (Index.createId H fuel (Some l) σ) = Throw e /\
    file (snd (Index.createId H fuel (Some l) σ)) = file σ.
Proof.
  intros Hsup Hpos.
  destruct (conform_cases (object_at σ l)) as [[P' HP'] | [e He]].
  - exfalso. apply conform_ok in HP' as (_ & _ & _ & _ & _ & _ & Hil & _).
    unfold supplied in Hsup. apply negb_true_iff in Hsup. rewrite Hsup in Hil.
    unfold option_of in Hil.
    destruct (prop (object_at σ l) "idLength"); cbn in *; congruence.
  - exists e. by apply (createId_conform_throws fuel (Some l)).
Qed.
End Throws.

Section Walk.
Variable H : host.
Import Package.

End Walk.


Section RootPath.
Variable H : host.

Lemma readPackageJson_found dir p :
  Package.readPackageJson H dir = Ok (Some p) ->
  JS.truthy (Package.name p) = true /\
  Package.path p = dir /\
  Package.pkgPath p = pathJoin H dir "package.json".
Proof.
  unfold Package.readPackageJson. intros Hread.
  repeat case_match; try discriminate; injection Hread as <-; cbn;
    split_and!; try done; by apply negb_false_iff.
Qed.

(** C1: with [rootPath] given, [isPackage] set and no [packageName], the ID
    string is [package:<name>@<name>:<relativePath>]: the name of the
    manifest stands where its version should. *)
Theorem rootPath_package_version_is_name fuel path options f σ r p n v :
  prop (object_at σ options) "rootPath" = VStr r ->
  r <> "" ->
  JS.truthy (prop (object_at σ options) "isPackage") = true ->
  JS.truthy (prop (object_at σ options) "packageName") = false ->
  Package.readPackageJson H r = Ok (Some p) ->
  Package.name p = VStr n ->
  Package.version p = VStr v ->
  v <> "" ->
  Index.getIdStrFromPath H fuel path options (VFun f) σ =
    (Ok (VStr ("package:" +:+ n +:+ "@" +:+ n +:+ ":" +:+ posix_relative_path H r path)), σ).
Proof.
  intros Hroot Hr Hip Hpn Hread Hn Hv Hv'.
  assert (forall msg, call_invariant (VFun f) true msg = Ok tt) as Hcall.
  { intros msg. by destruct f. }
  apply String.eqb_neq in Hr, Hv'.
  unfold Index.getIdStrFromPath, Index.validatePackage. unfold_st.
  cbv beta iota zeta. rewrite Hroot, Hip, Hpn. cbn [JS.truthy JS.path_arg negb andb].
  rewrite Hr. cbn [negb]. rewrite Hread at 1. cbn [mbind outcome_bind obind].
  rewrite Hn, Hv. cbn [JS.truthy JS.isString]. rewrite Hv'. cbn [negb].
  rewrite !Hcall. cbn [obind JS.path_arg JS.truthy].
  apply readPackageJson_found in Hread as (Hname & _). rewrite Hn in Hname.
  cbn in Hname. unfold outcome_bind. cbn [obind JS.path_arg JS.truthy JS.to_string].
  by rewrite Hname.
Qed.
End RootPath.

(** ** Further properties: lib/hash.js *)

Section Base64Facts.
Import Hash Token.

Lemma take_append_le n a b :
  (n <= String.length a)%nat -> take n (a +:+ b) = take n a.
Proof.
  revert n. induction a as [| c a IH]; intros [| n] Hn; cbn in *; try done; try lia.
  f_equal. apply IH. lia.
Qed.

Lemma take_all n a : (String.length a <= n)%nat -> take n a = a.
Proof.
  revert n. induction a as [| c a IH]; intros [| n] Hn; cbn in *; try done; try lia.
  f_equal. apply IH. lia.
Qed.

Lemma all_chars_take p n a : all_chars p a = true -> all_chars p (take n a) = true.
Proof.
  revert n. induction a as [| c a IH]; intros [| n]; cbn; try done.
  intros [Hc Ha]%andb_prop. by rewrite Hc, IH.
Qed.

Lemma take_length n a : String.length (take n a) = Nat.min n (String.length a).
Proof.
  revert n. induction a as [| c a IH]; intros [| n]; cbn; try done. by rewrite IH.
Qed.

(** [base64] is its data characters, then the padding. *)
Lemma base64_split bs :
  base64 bs = take (data_chars (length bs)) (base64 bs) +:+ padding (length bs).
Proof.
  induction bs as [| a | a b | a b c l IH] using list_ind3; try reflexivity.
  cbn [length data_chars padding base64 Nat.add take]. rewrite IH at 1. reflexivity.
Qed.

Lemma strip_trailing_eq_padded d :
  all_chars is_b64 d = true ->
  strip_trailing_eq (d +:+ "=") = d.
Proof.
  induction d as [| c d IH]; [reflexivity |].
  cbn [all_chars]. intros [Hc Hd]%andb_prop.
  change (String c d +:+ "=") with (String c (d +:+ "=")).
  cbn [strip_trailing_eq]. rewrite (IH Hd).
  destruct d; [| reflexivity]. by rewrite (b64_not_eq c Hc).
Qed.

(** The base64 rendering of a digest: 43 characters of the alphabet, then
    one [=]. *)
Lemma digest_base64 bs :
  length bs = 32%nat ->
  exists d, base64 bs = d +:+ "=" /\ String.length d = 43%nat /\ all_chars is_b64 d = true.
Proof.
  intros Hlen. exists (take (data_chars (length bs)) (base64 bs)).
  destruct (base64_prefix bs (data_chars (length bs)) ltac:(lia)) as [Hl Ha].
  rewrite Hlen in *. split; [| by split].
  by rewrite (base64_split bs) at 1; rewrite Hlen.
Qed.

Lemma append_length a b : String.length (a +:+ b) = (String.length a + String.length b)%nat.
Proof.
  induction a as [| c a IH]; [reflexivity |].
  change (String c a +:+ b) with (String c (a +:+ b)). cbn [String.length]. by rewrite IH.
Qed.

Lemma append_assoc (a b c : string) : (a +:+ b) +:+ c = a +:+ (b +:+ c).
Proof.
  induction a as [| x a IH]; [reflexivity |].
  change (String x ((a +:+ b) +:+ c) = String x (a +:+ (b +:+ c))). by rewrite IH.
Qed.

(** What [shortHash] makes of the rendering [d=] of a digest and a length. *)
Lemma slice_strip d n :
  String.length d = 43%nat -> all_chars is_b64 d = true ->
  strip_trailing_eq (take n (d +:+ "=")) = take (Nat.min n 43) d.
Proof.
  intros Hl Ha. destruct (Nat.le_gt_cases n 43) as [Hn | Hn].
  - rewrite take_append_le by lia. rewrite Nat.min_l by lia.
    apply strip_trailing_eq_id. by apply all_chars_take.
  - rewrite take_all by (rewrite append_length; cbn; lia).
    rewrite strip_trailing_eq_padded by done.
    rewrite Nat.min_r by lia. symmetry. apply take_all. lia.
Qed.

(** The token is made of the first characters of the rendering [d] of the
    digest with the top bit of its first byte [b] cleared. *)
Lemma shortHash_digest str len :
  exists d b r n,
    d = String (b64_char (Z.shiftr (Z.land b 127) 2)) r /\
    String.length d = 43%nat /\ all_chars is_b64 d = true /\
    (0 <= len -> n = Z.to_nat len) /\
    shortHash str len = replace_char "/" "$" (replace_char "+" "_" (take (Nat.min n 43) d)).
Proof.
  pose proof (sha256Buffer_length str) as H32.
  unfold shortHash.
  destruct (sha256Buffer str) as [| b0 rest] eqn:Hbuf; [discriminate |].
  cbn [clear_top_bit].
  destruct (digest_base64 (Z.land b0 127 :: rest)) as (d & Hd & Hl & Ha); [done |].
  destruct (base64_head (Z.land b0 127) rest) as [r Hr]. rewrite Hd in Hr.
  destruct d as [| c d]; [discriminate |]. injection Hr as -> _.
  assert (exists n, 
            slice0 (base64 (Z.land b0 127 :: rest)) len =
              take n (String (b64_char (Z.shiftr (Z.land b0 127) 2)) d +:+ "=") /\
            (0 <= len -> n = Z.to_nat len)) as (n & Hn & Hlen).
  { unfold slice0. rewrite Hd.
    destruct (Z.ltb_spec len 0); eexists; (split; [reflexivity |]); lia. }
  exists (String (b64_char (Z.shiftr (Z.land b0 127) 2)) d), b0, d, n.
  rewrite Hn, (slice_strip _ n Hl Ha). by repeat split.
Qed.

(** The first [m] characters of such a rendering, after the two
    replacements. *)
Lemma digest_token b r m :
  let d := String (b64_char (Z.shiftr (Z.land b 127) 2)) r in
  let token := replace_char "/" "$" (replace_char "+" "_" (take m d)) in
  all_chars is_b64 d = true ->
  all_chars is_id_char token = true /\
  starts_with_digit token = false /\
  String.length token = Nat.min m (String.length d).
Proof.
  intros d token Ha. subst token.
  split; [apply replace_chars_safe; by apply all_chars_take |].
  split; [| by rewrite !replace_char_length, take_length].
  destruct m as [| m]; [reflexivity |].
  cbn [take replace_char starts_with_digit].
  apply letter_not_digit, low_group_letter.
Qed.

(** X1: for every string and every length, negative ones too, the token has
    only characters of [A-Za-z0-9_$] and does not begin with a digit; for a
    length that is not negative it has that many characters, and no more
    than 43, the characters a digest has before its padding. *)
Theorem shortHash_any_length str len :
  all_chars is_id_char (shortHash str len) = true /\
  starts_with_digit (shortHash str len) = false /\
  (0 <= len -> String.length (shortHash str len) = Z.to_nat (Z.min len 43)).
Proof.
  destruct (shortHash_digest str len) as (d & b & r & n & -> & Hl & Ha & Hn & ->).
  destruct (digest_token b r (Nat.min n 43) Ha) as (Hid & Hdigit & Hlength).
  split; [done |]. split; [done |].
  intros Hlen. rewrite Hlength, Hl, (Hn Hlen). lia.
Qed.

(** X2: the digest in base64, as it stands in an ID string [code:...], has
    44 characters: 43 of the base64 alphabet and one [=] at the end. *)
Theorem sha256Hash_shape str :
  String.length (sha256Hash str) = 44%nat /\
  exists d, sha256Hash str = d +:+ "=" /\ all_chars is_b64 d = true.
Proof.
  unfold sha256Hash.
  destruct (digest_base64 (sha256Buffer str) (sha256Buffer_length str)) as (d & -> & Hl & Ha).
  split; [rewrite append_length, Hl; reflexivity | eauto].
Qed.
End Base64Facts.

(** ** Further properties: lib/package.js *)

Section WalkFacts.
Variable H : host.
Import Package.

Lemma ancestor_S k path : ancestor H (S k) path = ancestor H k (dirname H path).
Proof. unfold ancestor. apply Nat.iter_succ_r. Qed.

Lemma readPackageJson_no_timeout dir : readPackageJson H dir <> Timeout.
Proof. unfold readPackageJson. by repeat case_match. Qed.

Lemma findPackageRoot_S fuel path :
  findPackageRoot H (S fuel) path =
    if String.eqb (dirname H path) path then Ok None
    else match readPackageJson H (dirname H path) with
         | Ok (Some props) => Ok (Some props)
         | Ok None => findPackageRoot H fuel (dirname H path)
         | Throw e => Throw e
         | Timeout => Timeout
         end.
Proof. reflexivity. Qed.

(** More turns do not change what a finished walk returned. *)
Lemma findPackageRoot_more_fuel n m path :
  findPackageRoot H n path <> Timeout -> (n <= m)%nat ->
  findPackageRoot H m path = findPackageRoot H n path.
Proof.
  revert m path. induction n as [| n IH]; intros m path Hr Hm; [done |].
  destruct m as [| m]; [lia |].
  rewrite !findPackageRoot_S in *.
  destruct (dirname H path =? path)%string; [done |].
  destruct (readPackageJson H (dirname H path)) as [[p |] | e |]; try done.
  apply IH; [done | lia].
Qed.

(** With a root [d] directories up, [d + 1] turns finish the walk. *)
Lemma findPackageRoot_enough d path :
  dirname H (ancestor H d path) = ancestor H d path ->
  findPackageRoot H (S d) path <> Timeout.
Proof.
  revert path. induction d as [| d IH]; intros path Hroot.
  - cbn in Hroot. rewrite findPackageRoot_S, Hroot, String.eqb_refl. done.
  - rewrite findPackageRoot_S.
    destruct (dirname H path =? path)%string; [done |].
    pose proof (readPackageJson_no_timeout (dirname H path)).
    destruct (readPackageJson H (dirname H path)) as [[p |] | e |]; try done.
    apply IH. by rewrite <- ancestor_S.
Qed.

(** X3: the walk ends. When the [d]-th ancestor of the path is a root (its
    parent is itself), [d + 1] turns are enough: the walk returns or
    throws, and any larger number of turns gives the same. *)
Theorem findPackageRoot_terminates d path :
  dirname H (ancestor H d path) = ancestor H d path ->
  findPackageRoot H (S d) path <> Timeout /\
  forall fuel, (S d <= fuel)%nat ->
    findPackageRoot H fuel path = findPackageRoot H (S d) path.
Proof.
  intros Hroot. pose proof (findPackageRoot_enough d path Hroot) as Hfin.
  split; [done |]. intros fuel Hfuel. by apply findPackageRoot_more_fuel.
Qed.

(** X4: what the walk finds is the nearest named manifest. When it returns
    a package, that is what [readPackageJson] reads at some ancestor of the
    path, the path itself not counted, its name is truthy, and every nearer
    ancestor has no manifest or one without a name. When it returns nothing,
    it reached a root and no ancestor up to the root had a named manifest. *)
Theorem findPackageRoot_nearest fuel path :
  (forall p, findPackageRoot H fuel path = Ok (Some p) ->
     exists k, (1 <= k <= fuel)%nat /\
       Package.path p = ancestor H k path /\
       readPackageJson H (ancestor H k path) = Ok (Some p) /\
       JS.truthy (Package.name p) = true /\
       forall j, (1 <= j < k)%nat -> readPackageJson H (ancestor H j path) = Ok None) /\
  (findPackageRoot H fuel path = Ok None ->
     exists k, (k < fuel)%nat /\
       dirname H (ancestor H k path) = ancestor H k path /\
       forall j, (1 <= j <= k)%nat -> readPackageJson H (ancestor H j path) = Ok None).
Proof.
  revert path. induction fuel as [| fuel IH]; intros path; [by split |].
  rewrite findPackageRoot_S.
  destruct (String.eqb_spec (dirname H path) path) as [Hroot | Hne].
  { split; [done |]. intros _. exists 0%nat. split; [lia |]. split; [done |]. intros; lia. }
  destruct (readPackageJson H (dirname H path)) as [[q |] | e |] eqn:Hread; try by split.
  - split; [| done]. intros p [= <-]. exists 1%nat.
    destruct (readPackageJson_found H _ _ Hread) as (Hname & Hpath & _).
    repeat split; try done; lia.
  - destruct (IH (dirname H path)) as [IHsome IHnone].
    assert (forall k, (forall j, (1 <= j < k)%nat ->
                readPackageJson H (ancestor H j (dirname H path)) = Ok None) ->
              forall j, (1 <= j < S k)%nat ->
                readPackageJson H (ancestor H j path) = Ok None) as Hshift.
    { intros k Hk [| [| j]] Hj; [lia | done |]. rewrite ancestor_S. apply Hk. lia. }
    split.
    + intros p Hp. destruct (IHsome p Hp) as (k & Hk & Hpath & Hrd & Hname & Hnear).
      exists (S k). rewrite ancestor_S. repeat split; try done; try lia.
      apply Hshift. done.
    + intros Hnone. destruct (IHnone Hnone) as (k & Hk & Hroot & Hnear).
      exists (S k). rewrite ancestor_S. repeat split; try done; try lia.
      intros j Hj. apply (Hshift (S k)); [| lia].
      intros j' Hj'. apply Hnear. lia.
Qed.
End WalkFacts.

(** ** Further properties: [conformOptions] *)

Lemma to_string_throw v e : JS.to_string v = Throw e -> JS.isSymbol v = true.
Proof. by destruct v as [| | [] | | | | | | |]. Qed.
Lemma slice_last_throw v e : JS.slice_last v = Throw e -> JS.isString v = false.
Proof. by destruct v. Qed.
Lemma slice_init_throw v e : JS.slice_init v = Throw e -> JS.isString v = false.
Proof. by destruct v. Qed.
Lemma tinyInvariant_throw c m e :
  tinyInvariant c m = Throw e -> c = false /\ e = InvariantFailed m.
Proof. destruct c; [done |]. by intros [= <-]. Qed.
Lemma call_invariant_throw f c m e :
  call_invariant (VFun f) c m = Throw e ->
  c = false /\ exists m', e = InvariantFailed m'.
Proof. destruct f, c; try done; intros [= <-]; eauto. Qed.

Lemma symbol_not v :
  JS.isSymbol v = true ->
  Index.is_undefined v = false /\ JS.isFullString v = false /\ JS.isBoolean v = false /\
  JS.isPositiveInteger v = false.
Proof. by destruct v. Qed.

Lemma slice_last_ok v a : JS.slice_last v = Ok a -> JS.isString v = true.
Proof. by destruct v. Qed.
Lemma valid_truthy_string v b :
  Index.is_undefined v || JS.isFullString v = true -> JS.truthy v && b = true ->
  JS.isString v = true.
Proof. by destruct v. Qed.


Ltac throw_facts :=
  repeat match goal with
  | E : JS.to_string _ = Throw _ |- _ => apply to_string_throw in E
  | E : JS.slice_last _ = Throw _ |- _ => apply slice_last_throw in E
  | E : JS.slice_init _ = Throw _ |- _ => apply slice_init_throw in E
  | E : tinyInvariant _ _ = Throw _ |- _ => apply tinyInvariant_throw in E as [E _]
  | E : call_invariant (VFun _) _ _ = Throw _ |- _ =>
      apply call_invariant_throw in E as [E _]
  end.

(** Close a run of [conform] on the options [P] that stops at a check the
    hypotheses say is passed. *)
Ltac refute_valid P :=
  throw_facts; simpl_props;
  fold (option_of P "pluginName") (option_of P "rootPath") (option_of P "packageName")
    (option_of P "packageVersion") (option_of P "isPackage") (option_of P "idLength")
    (option_of P "counterKey") in *;
  unfold valid_string in *;
  first
    [ congruence
    | match goal with
      | Hyp : JS.truthy ?n = JS.truthy ?v |- _ => rewrite Hyp in *; by destruct (JS.truthy v)
      | E1 : Index.is_undefined ?x = false, E2 : ?f ?x = false,
        Hyp : Index.is_undefined ?x || ?f ?x = true |- _ =>
          rewrite E1, E2 in Hyp; discriminate Hyp
      | E : JS.isSymbol ?x = true, Hyp : Index.is_undefined ?x || ?f ?x = true |- _ =>
          let S1 := fresh in let S2 := fresh in let S3 := fresh in let S4 := fresh in
          destruct (symbol_not _ E) as (S1 & S2 & S3 & S4);
          rewrite S1, ?S2, ?S3, ?S4 in Hyp; discriminate Hyp
      | E : JS.isString ?x = false, E' : JS.slice_last ?x = Ok _ |- _ =>
          apply slice_last_ok in E'; congruence
      | E : JS.isString ?x = false, E' : JS.truthy ?x && _ = true,
        Hyp : Index.is_undefined ?x || _ = true |- _ =>
          pose proof (valid_truthy_string _ _ Hyp E'); congruence
      | E : Index.is_undefined ?x = false, Hyp : ?x = VUndefined |- _ =>
          rewrite Hyp in E; discriminate E
      | E : Index.is_undefined ?x = false, Hyp : Index.is_undefined ?x = true |- _ =>
          congruence
      end ].

Section Normalize.
Variable H : host.
Import Index.

Lemma trimmed_root_run sep rootPath :
  trimmed_root sep rootPath =
    if JS.truthy rootPath && negb (bool_decide (rootPath = VStr sep))
    then match JS.slice_last rootPath with
         | Ok last =>
             if String.eqb last sep
             then match JS.slice_init rootPath with Ok init => VStr init | _ => rootPath end
             else rootPath
         | _ => rootPath
         end
    else rootPath.
Proof.
  destruct rootPath as [| | [] | z | | r | | | |]; cbn; try done.
  - by destruct (negb (z =? 0)).
  - destruct (String.eqb_spec r sep) as [-> | Hne].
    + rewrite bool_decide_eq_true_2 by done. cbn. by rewrite andb_false_r.
    + rewrite bool_decide_eq_false_2 by congruence. cbn.
      destruct (negb (r =? "")%string); cbn; [| done].
      by destruct (JS.last_char r =? sep)%string.
Qed.

Lemma conform_rootPath P P' :
  conform H P = (Ok tt, P') ->
  prop P' "rootPath" = trimmed_root (pathSeparator H) (option_of P "rootPath").
Proof.
  unfold conform, check_string_option. intros Hc. unfold_st_in Hc.
  cbv beta iota zeta in Hc.
  rewrite ?prop_insert_ne in Hc by done. rewrite !prop_fmap in Hc by done.
  repeat step Hc.
  all: apply pair_equal_spec in Hc as [Hc <-].
  all: simpl_props.
  all: fold (option_of P "rootPath") in *.
  all: rewrite trimmed_root_run.
  all: repeat match goal with
         | E : JS.truthy (option_of _ "rootPath") && _ = _ |- _ => rewrite E; clear E
         | E : JS.slice_last (option_of _ "rootPath") = _ |- _ => rewrite E; clear E
         | E : JS.slice_init (option_of _ "rootPath") = _ |- _ => rewrite E; clear E
         | E : (_ =? pathSeparator H)%string = _ |- _ => rewrite E; clear E
         end.
  all: reflexivity.
Qed.
Lemma conform_other P P' k :
  conform H P = (Ok tt, P') ->
  k <> "invariant" -> k <> "rootPath" -> k <> "isPackage" -> k <> "idLength" ->
  k <> "counterKey" ->
  prop P' k = option_of P k.
Proof.
  unfold conform, check_string_option. intros Hc ? ? ? ? ?. unfold_st_in Hc.
  cbv beta iota zeta in Hc.
  rewrite ?prop_insert_ne in Hc by done. rewrite !prop_fmap in Hc by done.
  repeat step Hc.
  all: apply pair_equal_spec in Hc as [Hc <-].
  all: rewrite ?prop_insert_ne by congruence.
  all: by rewrite prop_fmap.
Qed.

Lemma last_char_snoc r c : JS.last_char (r +:+ String c "") = String c "".
Proof.
  induction r as [| a r IH]; [reflexivity |].
  change (JS.last_char (String a (r +:+ String c "")) = String c "").
  destruct r as [| b r]; [reflexivity |]. exact IH.
Qed.

Lemma drop_last_snoc r c : JS.drop_last (r +:+ String c "") = r.
Proof.
  induction r as [| a r IH]; [reflexivity |].
  change (JS.drop_last (String a (r +:+ String c "")) = String a r).
  destruct r as [| b r]; [reflexivity |].
  change (String a (JS.drop_last (String b r +:+ String c "")) = String a (String b r)).
  by rewrite IH.
Qed.

Lemma conformOptions_ok options σ copy σ' :
  conformOptions H options σ = (Ok copy, σ') ->
  copy = fresh (dom (objects σ)) /\
  conform H (options_of σ options) = (Ok tt, object_at σ' copy) /\
  σ' = Store (<[copy := object_at σ' copy]> (objects σ)) (file σ).
Proof.
  rewrite conformOptions_run. intros Hrun.
  destruct (conform H (options_of σ options)) as [[[] | e |] P'] eqn:Hc;
    cbn [fst snd] in Hrun; [| discriminate | discriminate].
  injection Hrun as <- <-. by rewrite object_at_insert.
Qed.

(** X5: the object [conformOptions] returns is new, every object of the store
    is as before and so is the session. In it the ID length is a positive
    integer, 8 unless the options give one; the counter key is the default
    one; [isPackage] is a boolean, false unless given; the plugin name, root
    path, package name and package version are undefined or strings that are
    not empty, name and version both or neither; and no property is null:
    one the options do not use is copied, with undefined for null. *)
Theorem conformOptions_normalizes options σ copy σ' :
  conformOptions H options σ = (Ok copy, σ') ->
  objects σ !! copy = None /\ objects σ ⊆ objects σ' /\ file σ' = file σ /\
  (exists n, prop (object_at σ' copy) "idLength" = VNum n /\ 0 < n /\
     (if supplied (options_of σ options) "idLength"
      then prop (options_of σ options) "idLength" = VNum n
      else n = DEFAULT_ID_LEN)) /\
  prop (object_at σ' copy) "counterKey" = VSym ID_COUNTER /\
  (exists b, prop (object_at σ' copy) "isPackage" = VBool b /\
     (if supplied (options_of σ options) "isPackage"
      then prop (options_of σ options) "isPackage" = VBool b
      else b = false)) /\
  valid_string (prop (object_at σ' copy) "pluginName") = true /\
  valid_string (prop (object_at σ' copy) "rootPath") = true /\
  valid_string (prop (object_at σ' copy) "packageName") = true /\
  valid_string (prop (object_at σ' copy) "packageVersion") = true /\
  JS.truthy (prop (object_at σ' copy) "packageName") =
    JS.truthy (prop (object_at σ' copy) "packageVersion") /\
  (forall k, k <> "invariant" -> k <> "rootPath" -> k <> "isPackage" ->
     k <> "idLength" -> k <> "counterKey" ->
     prop (object_at σ' copy) k = null_to_undefined (prop (options_of σ options) k)) /\
  (forall k, prop (object_at σ' copy) k <> VNull).
Proof.
  intros Hrun. destruct (conformOptions_ok _ _ _ _ Hrun) as (Hcopy & Hc & Hσ').
  set (P := options_of σ options) in *. set (C := object_at σ' copy) in *.
  pose proof (conform_rootPath _ _ Hc) as Hroot.
  pose proof (fun k => conform_other _ _ k Hc) as Hother.
  destruct (conform_ok H _ _ Hc)
    as (Hpn & Hrp & Hn & Hv & Hip & Hnv & Hil & Hck & Hck' & Hil' & Hip' & Hn' & Hv' & Hpn' & Hinv).
  assert (valid_string (prop C "rootPath") = true) as Hrp'.
  { rewrite Hroot. unfold trimmed_root.
    destruct (option_of P "rootPath") as [| | | | | r | | | |]; try done.
    destruct (negb (r =? "")%string && negb (r =? pathSeparator H)%string &&
              (JS.last_char r =? pathSeparator H)%string) eqn:Hcase; [| done].
    apply andb_prop in Hcase as [[Hne Hsep]%andb_prop Hlast].
    unfold valid_string. cbn.
    destruct r as [| a [| b r]]; [done | |].
    - apply String.eqb_eq in Hlast. cbn [JS.last_char] in Hlast. rewrite <- Hlast in Hsep.
      by rewrite String.eqb_refl in Hsep.
    - done. }
  assert (exists n, prop C "idLength" = VNum n /\ 0 < n /\
            (if supplied P "idLength" then prop P "idLength" = VNum n
             else n = DEFAULT_ID_LEN)) as Hlen.
  { rewrite Hil'. unfold supplied. unfold option_of in *.
    destruct (prop P "idLength") as [| | | z | | | | | |]; cbn in Hil |- *;
      try discriminate; [by exists 8 | by exists 8 |].
    exists z. repeat split. by apply Z.ltb_lt. }
  assert (exists b, prop C "isPackage" = VBool b /\
            (if supplied P "isPackage" then prop P "isPackage" = VBool b
             else b = false)) as Hpkg.
  { rewrite Hip'. unfold supplied. unfold option_of in *.
    destruct (prop P "isPackage") as [| | b | | | | | | |]; cbn in Hip |- *;
      try discriminate; [by exists false | by exists false | by exists b]. }
  split; [subst copy; apply fresh_object_none |].
  split; [rewrite Hσ'; cbn [objects]; subst copy; apply insert_subseteq, fresh_object_none |].
  split; [by rewrite Hσ' |].
  split; [exact Hlen |]. split; [exact Hck' |]. split; [exact Hpkg |].
  rewrite Hpn', Hn', Hv'.
  do 5 (split; [assumption |]). split.
  - intros k ? ? ? ? ?. by apply Hother.
  - intros k Hnull.
    destruct Hlen as (n & Hlen & _). destruct Hpkg as (b & Hpkg & _).
    destruct (decide (k = "invariant")) as [-> | ?]; [congruence |].
    destruct (decide (k = "rootPath")) as [-> | ?].
    { rewrite Hnull in Hrp'. discriminate. }
    destruct (decide (k = "isPackage")) as [-> | ?]; [congruence |].
    destruct (decide (k = "idLength")) as [-> | ?]; [congruence |].
    destruct (decide (k = "counterKey")) as [-> | ?]; [congruence |].
    rewrite Hother in Hnull by done. unfold option_of in Hnull.
    by destruct (prop P k).
Qed.

(** X6: [conformOptions] takes one separator from the end of the root path,
    and no more; a root path that is the separator alone, or does not end
    with it, stays as it is. *)
Theorem rootPath_separator_trimmed options σ copy σ' c :
  pathSeparator H = String c "" ->
  conformOptions H options σ = (Ok copy, σ') ->
  (forall r, r <> "" ->
     prop (options_of σ options) "rootPath" = VStr (r +:+ String c "") ->
     prop (object_at σ' copy) "rootPath" = VStr r) /\
  (prop (options_of σ options) "rootPath" = VStr (String c "") ->
     prop (object_at σ' copy) "rootPath" = VStr (String c "")) /\
  (forall r, prop (options_of σ options) "rootPath" = VStr r ->
     JS.last_char r <> String c "" ->
     prop (object_at σ' copy) "rootPath" = VStr r).
Proof.
  intros Hsep Hrun. destruct (conformOptions_ok _ _ _ _ Hrun) as (_ & Hc & _).
  rewrite (conform_rootPath _ _ Hc), Hsep. unfold option_of.
  repeat split.
  - intros r Hr ->. cbn [null_to_undefined trimmed_root].
    rewrite last_char_snoc, drop_last_snoc, String.eqb_refl.
    assert ((r +:+ String c "" =? "")%string = false) as ->
      by (apply String.eqb_neq; by destruct r).
    assert ((r +:+ String c "" =? String c "")%string = false) as ->; [| done].
    apply String.eqb_neq. intros Heq. apply Hr.
    destruct r as [| a [| b r]]; [done | discriminate |].
    injection Heq as _ Heq. by destruct r.
  - intros ->. cbn [null_to_undefined trimmed_root].
    by rewrite String.eqb_refl, andb_false_r.
  - intros r -> Hlast. cbn [null_to_undefined trimmed_root].
    apply String.eqb_neq in Hlast. by rewrite Hlast, andb_false_r.
Qed.
Lemma conform_accepts P :
  valid_string (option_of P "pluginName") = true ->
  valid_string (option_of P "rootPath") = true ->
  valid_string (option_of P "packageName") = true ->
  valid_string (option_of P "packageVersion") = true ->
  (is_undefined (option_of P "isPackage") || JS.isBoolean (option_of P "isPackage")) = true ->
  JS.truthy (option_of P "packageName") = JS.truthy (option_of P "packageVersion") ->
  (is_undefined (option_of P "idLength") || JS.isPositiveInteger (option_of P "idLength")) = true ->
  option_of P "counterKey" = VUndefined ->
  exists P', conform H P = (Ok tt, P').
Proof.
  intros Hpn Hrp Hn Hv Hip Hnv Hil Hck.
  destruct (conform H P) as [[[] | e |] P'] eqn:Hc;
    [eauto | exfalso | by apply conform_no_timeout in Hc].
  revert Hc. unfold conform, check_string_option. intros Hc. unfold_st_in Hc.
  cbv beta iota zeta in Hc.
  rewrite ?prop_insert_ne in Hc by done. rewrite !prop_fmap in Hc by done.
  repeat step Hc.
  all: by refute_valid P.
Qed.

(** X7: [conformOptions] accepts the options exactly when the plugin name,
    root path, package name and package version are omitted or strings that
    are not empty, package name and version both or neither, [isPackage] is
    omitted or a boolean, [idLength] omitted or a positive integer, and
    [counterKey] omitted; null counts as omitted. It always returns or
    throws. *)
Theorem conformOptions_accepts options σ :
  ((exists copy σ', conformOptions H options σ = (Ok copy, σ')) <->
   valid_string (option_of (options_of σ options) "pluginName") = true /\
   valid_string (option_of (options_of σ options) "rootPath") = true /\
   valid_string (option_of (options_of σ options) "packageName") = true /\
   valid_string (option_of (options_of σ options) "packageVersion") = true /\
   supplied (options_of σ options) "packageName" =
     supplied (options_of σ options) "packageVersion" /\
   (supplied (options_of σ options) "isPackage" = true ->
      JS.isBoolean (prop (options_of σ options) "isPackage") = true) /\
   (supplied (options_of σ options) "idLength" = true ->
      JS.isPositiveInteger (prop (options_of σ options) "idLength") = true) /\
   supplied (options_of σ options) "counterKey" = false) /\
  fst (conformOptions H options σ) <> Timeout.
Proof.
  set (P := options_of σ options). split; [split |].
  - intros (copy & σ' & Hrun). apply conformOptions_ok in Hrun as (_ & Hc & _).
    fold P in Hc. apply conform_ok in Hc
      as (Hpn & Hrp & Hn & Hv & Hip & Hnv & Hil & Hck & _).
    rewrite <- !valid_string_truthy by done.
    do 5 (split; [assumption |]).
    unfold supplied, option_of in *. rewrite Hck.
    repeat split.
    + destruct (prop P "isPackage"); try done.
    + destruct (prop P "idLength"); try done.
  - intros (Hpn & Hrp & Hn & Hv & Hnv & Hip & Hil & Hck).
    destruct (conform_accepts P) as [P' Hc]; try assumption.
    + unfold supplied, option_of in *. by destruct (prop P "isPackage"); auto.
    + by rewrite !valid_string_truthy.
    + unfold supplied, option_of in *. by destruct (prop P "idLength"); auto.
    + unfold supplied in Hck. apply negb_false_iff in Hck. by apply is_undefined_true.
    + eexists _, _. rewrite conformOptions_run. fold P. rewrite Hc. reflexivity.
  - rewrite conformOptions_run. fold P. cbn [fst].
    destruct (conform H P) as [[[] | e |] P'] eqn:Hc; [done | done |].
    by apply conform_no_timeout in Hc.
Qed.

End Normalize.

(** ** Further properties: [getIdStrFromPath] and [validatePackage] *)

Section IdStrings.
Variable H : host.

Lemma isFullString_split v : JS.isFullString v = JS.isString v && JS.truthy v.
Proof. by destruct v. Qed.

(** X9: [validatePackage] accepts a manifest exactly when its name is a string
    and its version a string that is not empty; it refuses every other one
    with an invariant error, and none at all with a TypeError. *)
Theorem validatePackage_accepts p f :
  (Index.validatePackage (Some p) (VFun f) = Ok tt <->
   JS.isString (Package.name p) = true /\ JS.isFullString (Package.version p) = true) /\
  (Index.validatePackage (Some p) (VFun f) = Ok tt \/
   exists msg, Index.validatePackage (Some p) (VFun f) = Throw (InvariantFailed msg)).
Proof.
  unfold Index.validatePackage. rewrite isFullString_split.
  destruct f as [| pluginName]; cbn [call_invariant]; unfold tinyInvariant;
    destruct (JS.truthy (Package.version p)), (JS.isString (Package.name p)),
      (JS.isString (Package.version p)); cbn;
    (split; [split; [try discriminate; by intros | by intros [? ?]] | eauto]).
Qed.

(** X10: with a root path and no [isPackage] the file system is not looked at:
    the ID string is [path:] and the path of the file relative to the root,
    or [package:<name>@<version>:] and that path when the options name a
    package. *)
Theorem getIdStrFromPath_explicit_root fuel path options invariant σ root :
  let P := object_at σ options in
  prop P "rootPath" = VStr root -> root <> "" ->
  (JS.truthy (prop P "packageName") = false ->
   JS.truthy (prop P "isPackage") = false ->
   Index.getIdStrFromPath H fuel path options invariant σ =
     (Ok (VStr ("path:" +:+ posix_relative_path H root path)), σ)) /\
  (forall n v, prop P "packageName" = VStr n -> n <> "" ->
   prop P "packageVersion" = VStr v ->
   Index.getIdStrFromPath H fuel path options invariant σ =
     (Ok (VStr ("package:" +:+ n +:+ "@" +:+ v +:+ ":" +:+ posix_relative_path H root path)), σ)).
Proof.
  intros P Hroot Hne.
  assert (JS.truthy (VStr root) = true) as Ht
    by (cbn; by apply negb_true_iff, String.eqb_neq).
  split.
  - intros Hn Hp. unfold Index.getIdStrFromPath. unfold_st. cbv beta iota zeta.
    fold P. rewrite Hroot, Ht, Hn, Hp. cbn. by rewrite Hn.
  - intros n v Hn Hnn Hv. unfold Index.getIdStrFromPath. unfold_st. cbv beta iota zeta.
    fold P. rewrite Hroot, Ht, Hn, Hv.
    apply String.eqb_neq in Hnn. cbn. rewrite Hnn, andb_false_r. cbn. by rewrite Hnn.
Qed.

(** X11: with [isPackage] and a root path whose directory has no manifest, or
    one without a name, the call ends in a TypeError, not in an invariant
    error: [validatePackage] takes the fields of a descriptor that is
    undefined. *)
Theorem rootPath_without_manifest_throws fuel path options f σ root :
  let P := object_at σ options in
  prop P "rootPath" = VStr root -> root <> "" ->
  JS.truthy (prop P "isPackage") = true ->
  JS.truthy (prop P "packageName") = false ->
  Package.readPackageJson H root = Ok None ->
  Index.getIdStrFromPath H fuel path options (VFun f) σ = (Throw TypeError, σ).
Proof.
  intros P Hroot Hne Hp Hn Hread.
  unfold Index.getIdStrFromPath. unfold_st. cbv beta iota zeta.
  fold P. rewrite Hroot, Hp, Hn. cbn [JS.truthy JS.path_arg].
  apply String.eqb_neq in Hne. rewrite Hne. cbn [negb andb].
  rewrite Hread. reflexivity.
Qed.

(** X12: without a root path the walk decides. Its error is the error of the
    call; when it reaches the top the result is undefined; with the package
    [p] it finds, the path is taken relative to the directory of [p], and
    with [isPackage] the ID string names [p] and its version. *)
Theorem getIdStrFromPath_walk fuel path options f σ :
  let P := object_at σ options in
  JS.truthy (prop P "rootPath") = false ->
  (forall e, Package.findPackageRoot H fuel path = Throw e ->
     Index.getIdStrFromPath H fuel path options (VFun f) σ = (Throw e, σ)) /\
  (Package.findPackageRoot H fuel path = Ok None ->
     Index.getIdStrFromPath H fuel path options (VFun f) σ = (Ok VUndefined, σ)) /\
  (forall p, Package.findPackageRoot H fuel path = Ok (Some p) ->
     JS.truthy (prop P "isPackage") = false ->
     JS.truthy (prop P "packageName") = false ->
     Index.getIdStrFromPath H fuel path options (VFun f) σ =
       (Ok (VStr ("path:" +:+ posix_relative_path H (Package.path p) path)), σ)) /\
  (forall p n v, Package.findPackageRoot H fuel path = Ok (Some p) ->
     JS.truthy (prop P "isPackage") = true ->
     JS.truthy (prop P "packageName") = false ->
     Package.name p = VStr n -> n <> "" -> Package.version p = VStr v -> v <> "" ->
     Index.getIdStrFromPath H fuel path options (VFun f) σ =
       (Ok (VStr ("package:" +:+ n +:+ "@" +:+ v +:+ ":" +:+
                  posix_relative_path H (Package.path p) path)), σ)).
Proof.
  intros P Hroot. repeat split.
  - intros e Hw. unfold Index.getIdStrFromPath. unfold_st. cbv beta iota zeta.
    fold P. by rewrite Hroot, Hw.
  - intros Hw. unfold Index.getIdStrFromPath. unfold_st. cbv beta iota zeta.
    fold P. by rewrite Hroot, Hw.
  - intros p Hw Hp Hn. unfold Index.getIdStrFromPath. unfold_st. cbv beta iota zeta.
    fold P. rewrite Hroot, Hw, Hp, Hn. cbn. by rewrite Hn.
  - intros p n v Hw Hp Hn Hname Hnn Hversion Hvn.
    unfold Index.getIdStrFromPath, Index.validatePackage. unfold_st. cbv beta iota zeta.
    fold P. rewrite Hroot, Hw, Hp, Hn, Hname, Hversion.
    apply String.eqb_neq in Hnn, Hvn.
    destruct f; cbn; rewrite ?Hnn, ?Hvn; cbn; rewrite ?Hnn; reflexivity.
Qed.
Lemma validatePackage_versions packageProps f :
  Legacy.validatePackage packageProps (prefix_of f) =
  Index.validatePackage packageProps (VFun f).
Proof.
  destruct packageProps as [p |]; [| reflexivity].
  unfold Legacy.validatePackage, Index.validatePackage.
  destruct f as [| pluginName]; cbn [prefix_of call_invariant]; [reflexivity |].
  by rewrite !append_assoc.
Qed.

(** X13: the two versions of [getIdStrFromPath] are one function: they return
    the same ID string, or throw the same error with the same message, when
    the error prefix of the one is that of the invariant function of the
    other. *)
Theorem getIdStrFromPath_versions_agree fuel path options f σ :
  Legacy.getIdStrFromPath H fuel path options (prefix_of f) σ =
  Index.getIdStrFromPath H fuel path options (VFun f) σ.
Proof.
  unfold Legacy.getIdStrFromPath, Index.getIdStrFromPath.
  unfold_st. cbv beta iota zeta.
  set (P := object_at σ options).
  destruct (JS.truthy (prop P "rootPath")).
  - destruct (JS.truthy (prop P "isPackage") && negb (JS.truthy (prop P "packageName")));
      [| reflexivity].
    destruct (JS.path_arg (prop P "rootPath")); [| reflexivity | reflexivity].
    destruct (Package.readPackageJson H a) as [packageProps | |]; [| reflexivity | reflexivity].
    by rewrite validatePackage_versions.
  - destruct (Package.findPackageRoot H fuel path) as [[p |] | |]; try reflexivity.
    destruct (JS.truthy (prop P "isPackage") && negb (JS.truthy (prop P "packageName")));
      [| reflexivity].
    by rewrite validatePackage_versions.
Qed.
End IdStrings.

Section Separators.
Import Hash Token.

Lemma replace_char_none x y s :
  all_chars (fun c => negb (Ascii.eqb c x)) s = true -> replace_char x y s = s.
Proof.
  induction s as [| c s IH]; [reflexivity |].
  cbn [all_chars replace_char]. intros [Hc Hs]%andb_prop.
  apply negb_true_iff in Hc. by rewrite Hc, IH.
Qed.

Lemma replace_char_back x y s :
  all_chars (fun c => negb (Ascii.eqb c y)) s = true ->
  replace_char y x (replace_char x y s) = s.
Proof.
  induction s as [| c s IH]; [reflexivity |].
  cbn [all_chars replace_char]. intros [Hc Hs]%andb_prop.
  rewrite (IH Hs). apply negb_true_iff in Hc.
  destruct (Ascii.eqb_spec c x) as [-> | Hx].
  - by rewrite Ascii.eqb_refl.
  - by rewrite Hc.
Qed.

Lemma replace_char_gone x y s :
  x <> y -> all_chars (fun c => negb (Ascii.eqb c x)) (replace_char x y s) = true.
Proof.
  intros Hxy. induction s as [| c s IH]; [reflexivity |].
  cbn [all_chars replace_char]. rewrite IH, andb_true_r.
  destruct (Ascii.eqb_spec c x) as [-> | Hx]; apply negb_true_iff, Ascii.eqb_neq; congruence.
Qed.

(** X14: the path in an ID string is the same on Windows and on Posix. With
    the separator [\] the relative path has no [\] left; and when the
    relative path on Windows is the one on Posix with [\] for [/], both
    hosts put the same path in the ID string. *)
Theorem relative_path_posix_style Hw root path :
  pathSeparator Hw = "\" ->
  all_chars (fun c => negb (Ascii.eqb c "\")) (posix_relative_path Hw root path) = true /\
  forall Hp root' path',
    pathSeparator Hp = "/" ->
    all_chars (fun c => negb (Ascii.eqb c "\")) (pathRelative Hp root' path') = true ->
    pathRelative Hw root path = replace_char "/" "\" (pathRelative Hp root' path') ->
    posix_relative_path Hw root path = posix_relative_path Hp root' path'.
Proof.
  intros Hsep. unfold posix_relative_path. rewrite Hsep. cbn [String.eqb Ascii.eqb Bool.eqb].
  split; [by apply replace_char_gone |].
  intros Hp root' path' -> Hclean ->. cbn [String.eqb Ascii.eqb Bool.eqb].
  by apply replace_char_back.
Qed.
End Separators.

(** ** Further properties: the exported function *)

Section SessionFacts.
Variable H : host.

Lemma add_counter_file of_string idStr k idLength σ :
  filename (file (snd (add_counter of_string idStr k idLength σ))) = filename (file σ) /\
  code (file (snd (add_counter of_string idStr k idLength σ))) = code (file σ).
Proof. rewrite add_counter_run. cbv zeta. by repeat case_match. Qed.

(** X15: a call writes two slots of the session at most, the one of the ID
    string and the one of its counter key: every other slot, the file name
    and the source text are as before, whatever the call comes to. So
    counters under different keys do not disturb each other. *)
Theorem other_slots_kept ver fuel options σ k :
  k <> counter_key (options_of σ options) ->
  k <> VSym ID_STRING ->
  slot (snd (createId_of ver H fuel options σ)) k = slot σ k /\
  filename (file (snd (createId_of ver H fuel options σ))) = filename (file σ) /\
  code (file (snd (createId_of ver H fuel options σ))) = code (file σ).
Proof.
  intros Hk Hid.
  destruct (createId_of_run H ver fuel options σ) as (objs & r & _ & _ & ->).
  unfold call_shape.
  destruct (prelude ver H (options_of σ options)); cbn [snd]; [| done | done].
  destruct (JS.truthy (slot σ (VSym ID_STRING))).
  - rewrite add_counter_keeps by done.
    by destruct (add_counter_file (stringToInteger H) (slot σ (VSym ID_STRING))
                   (counter_key (options_of σ options)) a (Store objs (file σ))).
  - destruct r as [idStr | |]; cbn [snd]; [| done | done].
    rewrite add_counter_keeps, slot_set_ne by done.
    by destruct (add_counter_file (stringToInteger H) idStr
                   (counter_key (options_of σ options)) a
                   (set_slot (Store objs (file σ)) (VSym ID_STRING) idStr)).
Qed.

(** The counter step, when it returns. *)
Lemma add_counter_returns of_string idStr k idLength σ tok σ' :
  add_counter of_string idStr k idLength σ = (Ok tok, σ') ->
  exists I suffix len next,
    JS.to_string idStr = Ok I /\ JS.to_integer of_string idLength = Ok len /\
    tok = Hash.shortHash (I +:+ ":" +:+ suffix) len /\
    σ' = set_slot σ k next.
Proof.
  rewrite add_counter_run. cbv zeta. intros Hrun.
  repeat case_match; try discriminate.
  all: injection Hrun as <- <-; by eexists _, _, _, _.
Qed.


Lemma resolve_block_path getter σ p r :
  filename (file σ) = Some p -> p <> "" ->
  getter p σ = (r, σ) ->
  resolve_block getter σ =
    match r with
    | Ok v =>
        let idStr := if JS.truthy v then v else code_id_string σ in
        (Ok idStr, set_slot σ (VSym ID_STRING) idStr)
    | Throw e => (Throw e, σ)
    | Timeout => (Timeout, σ)
    end.
Proof.
  intros Hfile Hp Hget. unfold resolve_block.
  rewrite bind_run. unfold file_filename at 1. cbv beta iota. rewrite Hfile.
  apply String.eqb_neq in Hp. rewrite Hp. cbn [negb].
  rewrite bind_run, Hget.
  destruct r as [v | e |]; [| done | done].
  rewrite bind_run. by destruct (JS.truthy v).
Qed.

(** X16: a token the exported function returns is an identifier: characters
    of [A-Za-z0-9_$] only, and no digit at its head. It has as many
    characters as the ID length in effect, and 43 at most. In the version
    with [conformOptions] that length is positive: the one the options give,
    else 8. In the other version it is what the [idLength] of the options
    comes to as an integer, and 8 when that option is falsy. *)
Theorem createId_token ver fuel options σ tok σ' :
  createId_of ver H fuel options σ = (Ok tok, σ') ->
  Token.all_chars Token.is_id_char tok = true /\
  Token.starts_with_digit tok = false /\
  exists len,
    (0 <= len -> String.length tok = Z.to_nat (Z.min len 43)) /\
    match ver with
    | Conforming =>
        0 < len /\
        (if supplied (options_of σ options) "idLength"
         then prop (options_of σ options) "idLength" = VNum len
         else len = Index.DEFAULT_ID_LEN)
    | Plain =>
        if JS.truthy (prop (options_of σ options) "idLength")
        then JS.to_integer (stringToInteger H) (prop (options_of σ options) "idLength") =
               Ok len
        else len = Legacy.DEFAULT_ID_LEN
    end.
Proof.
  intros Hrun.
  destruct (createId_of_run H ver fuel options σ) as (objs & r & _ & _ & Hshape).
  rewrite Hshape in Hrun. unfold call_shape in Hrun.
  destruct (prelude ver H (options_of σ options)) as [idLength | |] eqn:Hpre;
    [| discriminate | discriminate].
  assert (exists s len, JS.to_integer (stringToInteger H) idLength = Ok len /\
                        tok = Hash.shortHash s len) as (s & len & Hlen & ->).
  { destruct (JS.truthy (slot σ (VSym ID_STRING))).
    - apply add_counter_returns in Hrun as (I & suffix & len & next & _ & Hlen & -> & _).
      eauto.
    - destruct r as [idStr | |]; [| discriminate | discriminate].
      apply add_counter_returns in Hrun as (I & suffix & len & next & _ & Hlen & -> & _).
      eauto. }
  destruct (shortHash_digest s len) as (d & b & t & n & -> & Hl & Ha & Hn & ->).
  destruct (digest_token b t (Nat.min n 43) Ha) as (Hid & Hdigit & Hlength).
  split; [done |]. split; [done |].
  exists len. split; [intros Hpos; rewrite Hlength, Hl, Hn by lia; lia |].
  destruct ver; cbn [prelude] in Hpre.
  - destruct (Index.conform H (options_of σ options)) as [[[] | |] P'] eqn:Hc;
      [| discriminate | discriminate].
    injection Hpre as <-.
    apply conform_ok in Hc as (_ & _ & _ & _ & _ & _ & Hil & _ & _ & Hil' & _).
    rewrite Hil' in Hlen. unfold supplied. unfold option_of in *.
    destruct (prop (options_of σ options) "idLength") as [| | | z | | | | | |];
      cbn in Hil, Hlen; try discriminate; injection Hlen as <-.
    + by split.
    + by split.
    + apply Z.ltb_lt in Hil. by split.
  - assert (idLength =
            if JS.truthy (prop (options_of σ options) "idLength")
            then prop (options_of σ options) "idLength"
            else VNum Legacy.DEFAULT_ID_LEN) as ->.
    { cbv zeta in Hpre. unfold mbind, outcome_bind, obind in Hpre.
      repeat case_match; try discriminate; by injection Hpre as <-. }
    destruct (JS.truthy (prop (options_of σ options) "idLength")); [done |].
    by injection Hlen as <-.
Qed.


(** The copy of the options a call of the version with [conformOptions]
    reads, and the ID string the call stores, when the session gives the
    file name [p] and has no ID string yet. *)
Lemma createId_path_id fuel options σ tok σ' p :
  filename (file σ) = Some p -> p <> "" ->
  JS.truthy (slot σ (VSym ID_STRING)) = false ->
  Index.createId H fuel options σ = (Ok tok, σ') ->
  exists c P' v,
    Index.conform H (options_of σ options) = (Ok tt, P') /\
    Index.getIdStrFromPath H fuel p c (prop P' "invariant")
      (Store (<[c := P']> (objects σ)) (file σ)) =
      (Ok v, Store (<[c := P']> (objects σ)) (file σ)) /\
    slot σ' (VSym ID_STRING) = (if JS.truthy v then v else code_id_string σ).
Proof.
  intros Hfile Hp Hslot Hrun.
  rewrite createId_uncached_block in Hrun by done. cbv zeta in Hrun.
  destruct (Index.conform H (options_of σ options)) as [[[] | |] P'];
    cbn [fst snd] in Hrun; [| discriminate | discriminate].
  set (c := fresh (dom (objects σ))) in *.
  set (σ1 := Store (<[c := P']> (objects σ)) (file σ)) in *.
  destruct (getIdStrFromPath_reads H fuel p c (prop P' "invariant") σ1) as (r & Hget & _).
  rewrite bind_run in Hrun.
  rewrite (resolve_block_path _ σ1 p r) in Hrun; [| done | done |].
  - destruct r as [v | |]; [| discriminate | discriminate]. cbv zeta in Hrun.
    apply add_counter_returns in Hrun as (I & suffix & len & next & _ & _ & _ & ->).
    exists c, P', v. split; [done |]. split; [done |].
    by rewrite slot_set_ne, slot_set_eq.
  - rewrite bind_run. unfold get_prop at 1. cbv beta iota.
    subst σ1. by rewrite object_at_insert.
Qed.

(** X18: from the root path to the ID string, in the version with
    [conformOptions]. When the session gives the file name [p] and has no ID
    string yet, the options give a root path and no package name, and
    [isPackage] is omitted or false, a call that returns has stored [path:]
    and the path of [p] relative to the root, the root without the
    separator at its end. *)
Theorem rootPath_relative_id fuel options σ tok σ' p r :
  filename (file σ) = Some p -> p <> "" ->
  JS.truthy (slot σ (VSym ID_STRING)) = false ->
  prop (options_of σ options) "rootPath" = VStr r ->
  supplied (options_of σ options) "packageName" = false ->
  JS.truthy (prop (options_of σ options) "isPackage") = false ->
  Index.createId H fuel options σ = (Ok tok, σ') ->
  exists root,
    trimmed_root (pathSeparator H) (VStr r) = VStr root /\
    slot σ' (VSym ID_STRING) = VStr ("path:" +:+ posix_relative_path H root p).
Proof.
  intros Hfile Hp Hslot Hroot Hname Hpkg Hrun.
  destruct (createId_path_id _ _ _ _ _ _ Hfile Hp Hslot Hrun)
    as (c & P' & v & Hc & Hget & ->).
  pose proof (conform_rootPath H _ _ Hc) as Hroot'.
  apply conform_ok in Hc
    as (_ & Hrp & _ & _ & _ & _ & _ & _ & _ & _ & Hip' & Hn' & _).
  unfold supplied in Hname. apply negb_false_iff, is_undefined_true in Hname.
  unfold option_of in Hrp, Hroot', Hip', Hn', Hname. rewrite Hroot in Hrp, Hroot'.
  cbn [Index.null_to_undefined] in Hrp, Hroot'.
  assert (exists root, trimmed_root (pathSeparator H) (VStr r) = VStr root /\ root <> "")
    as (root & Htrim & Hne).
  { unfold valid_string in Hrp. cbn in Hrp. apply negb_true_iff, String.eqb_neq in Hrp.
    unfold trimmed_root.
    destruct (negb (r =? "")%string && negb (r =? pathSeparator H)%string &&
              (JS.last_char r =? pathSeparator H)%string) eqn:Hcase; [| eauto].
    apply andb_prop in Hcase as [[_ Hsep]%andb_prop Hlast].
    eexists. split; [reflexivity |].
    destruct r as [| a [| b r]]; [done | | done].
    apply String.eqb_eq in Hlast. cbn [JS.last_char] in Hlast. rewrite <- Hlast in Hsep.
    by rewrite String.eqb_refl in Hsep. }
  exists root. split; [done |].
  assert (JS.truthy (prop P' "isPackage") = false) as Hip.
  { rewrite Hip'. by destruct (prop (options_of σ options) "isPackage") as [| | [] | | | | | | |]. }
  revert Hget. unfold Index.getIdStrFromPath. unfold_st. cbv beta iota zeta.
  rewrite object_at_insert, Hroot', Htrim, Hn', Hname, Hip.
  apply String.eqb_neq in Hne. cbn. rewrite Hne. cbn.
  by intros [= <-].
Qed.

(** X19: from the walk to the ID string, in the version with
    [conformOptions]. When the session gives the file name [p] and has no ID
    string yet, the options give no root path and no package name, and
    [isPackage] is omitted or false, a call that returns has stored [code:]
    and the digest of the source text when no directory above [p] has a
    named manifest, and [path:] and the path of [p] relative to the nearest
    directory that has one otherwise. *)
Theorem walk_id_string fuel options σ tok σ' p :
  filename (file σ) = Some p -> p <> "" ->
  JS.truthy (slot σ (VSym ID_STRING)) = false ->
  supplied (options_of σ options) "rootPath" = false ->
  supplied (options_of σ options) "packageName" = false ->
  JS.truthy (prop (options_of σ options) "isPackage") = false ->
  Index.createId H fuel options σ = (Ok tok, σ') ->
  (Package.findPackageRoot H fuel p = Ok None /\
   slot σ' (VSym ID_STRING) = VStr ("code:" +:+ Hash.sha256Hash (code (file σ)))) \/
  (exists pkg, Package.findPackageRoot H fuel p = Ok (Some pkg) /\
   slot σ' (VSym ID_STRING) =
     VStr ("path:" +:+ posix_relative_path H (Package.path pkg) p)).
Proof.
  intros Hfile Hp Hslot Hroot Hname Hpkg Hrun.
  destruct (createId_path_id _ _ _ _ _ _ Hfile Hp Hslot Hrun)
    as (c & P' & v & Hc & Hget & ->).
  pose proof (conform_rootPath H _ _ Hc) as Hroot'.
  apply conform_ok in Hc
    as (_ & _ & _ & _ & _ & _ & _ & _ & _ & _ & Hip' & Hn' & _).
  unfold supplied in Hname, Hroot.
  apply negb_false_iff, is_undefined_true in Hname, Hroot.
  rewrite Hroot in Hroot'. cbn [trimmed_root] in Hroot'.
  unfold option_of in Hip', Hn', Hname.
  assert (JS.truthy (prop P' "isPackage") = false) as Hip.
  { rewrite Hip'. by destruct (prop (options_of σ options) "isPackage") as [| | [] | | | | | | |]. }
  revert Hget. unfold Index.getIdStrFromPath. unfold_st. cbv beta iota zeta.
  rewrite object_at_insert, Hroot', Hn', Hname, Hip. cbn [JS.truthy andb].
  destruct (Package.findPackageRoot H fuel p) as [[pkg |] | |]; [| | done | done].
  - cbn. intros [= <-]. right. by exists pkg.
  - intros [= <-]. by left.
Qed.
End SessionFacts.

(** ** Further properties: the exported function returns or throws *)

Section Termination.
Variable H : host.

Lemma validatePackage_no_timeout packageProps invariant :
  Index.validatePackage packageProps invariant <> Timeout.
Proof.
  unfold Index.validatePackage. destruct packageProps as [p |]; [| done].
  unfold mbind, outcome_bind, obind.
  repeat case_match; try done; first [refute_timeout | never_timeout].
Qed.

Lemma legacy_validatePackage_no_timeout packageProps errorPrefix :
  Legacy.validatePackage packageProps errorPrefix <> Timeout.
Proof.
  unfold Legacy.validatePackage. destruct packageProps as [p |]; [| done].
  unfold mbind, outcome_bind, obind.
  repeat case_match; try done; first [refute_timeout | never_timeout].
Qed.

(** Close a goal on a run that is stuck at an operation that always
    finishes. *)
Ltac refute_stuck :=
  match goal with
  | E : Package.readPackageJson _ _ = Timeout |- _ =>
      by apply readPackageJson_no_timeout in E
  | E : Index.validatePackage _ _ = Timeout |- _ =>
      by apply validatePackage_no_timeout in E
  | E : Legacy.validatePackage _ _ = Timeout |- _ =>
      by apply legacy_validatePackage_no_timeout in E
  | _ => refute_timeout
  end.

Lemma getIdStrFromPath_no_timeout fuel path options invariant σ :
  Package.findPackageRoot H fuel path <> Timeout ->
  fst (Index.getIdStrFromPath H fuel path options invariant σ) <> Timeout.
Proof.
  intros Hwalk. unfold Index.getIdStrFromPath. unfold_st. cbv beta iota zeta.
  repeat case_match; simplify_eq; cbn [fst]; try done; refute_stuck.
Qed.

Lemma legacy_getIdStrFromPath_no_timeout fuel path options errorPrefix σ :
  Package.findPackageRoot H fuel path <> Timeout ->
  fst (Legacy.getIdStrFromPath H fuel path options errorPrefix σ) <> Timeout.
Proof.
  intros Hwalk. unfold Legacy.getIdStrFromPath. unfold_st. cbv beta iota zeta.
  repeat case_match; simplify_eq; cbn [fst]; try done; refute_stuck.
Qed.

Lemma resolve_block_no_timeout getter σ :
  (forall p, filename (file σ) = Some p -> fst (getter p σ) <> Timeout) ->
  fst (resolve_block getter σ) <> Timeout.
Proof.
  intros Hget. unfold resolve_block.
  rewrite bind_run. unfold file_filename at 1. cbv beta iota.
  destruct (filename (file σ)) as [p |]; [| done].
  destruct (negb (p =? "")%string); [| done].
  rewrite bind_run. specialize (Hget p eq_refl).
  destruct (getter p σ) as [[v | e |] s]; [| done | done].
  rewrite bind_run. by destruct (JS.truthy v).
Qed.

Lemma add_counter_no_timeout of_string idStr k idLength σ :
  fst (add_counter of_string idStr k idLength σ) <> Timeout.
Proof.
  rewrite add_counter_run. cbv zeta.
  repeat case_match; cbn [fst]; try done; refute_timeout.
Qed.

Lemma prelude_no_timeout ver P : prelude ver H P <> Timeout.
Proof.
  destruct ver; cbn [prelude].
  - destruct (Index.conform H P) as [[[] | e |] P'] eqn:Hc; try done.
    by apply conform_no_timeout in Hc.
  - cbv zeta. unfold mbind, outcome_bind, obind.
    repeat case_match; try done; refute_timeout.
Qed.

(** A block that finishes, then the counter step. *)
Lemma block_then_counter_no_timeout getter of_string k idLength σ :
  (forall p, filename (file σ) = Some p -> fst (getter p σ) <> Timeout) ->
  fst ((idStr ← resolve_block getter; add_counter of_string idStr k idLength) σ) <> Timeout.
Proof.
  intros Hget. rewrite bind_run.
  pose proof (resolve_block_no_timeout getter σ Hget) as Hblock.
  destruct (resolve_block getter σ) as [[idStr | e |] s]; [| done | done].
  apply add_counter_no_timeout.
Qed.

(** X20: the exported function returns or throws. When the session gives no
    file name, or the [d]-th ancestor of the file is a root (its parent is
    itself), a call that may visit more than [d] directories does not run
    out of turns, whatever the options, the session and the file system. *)
Theorem createId_terminates ver d fuel options σ :
  (forall p, filename (file σ) = Some p ->
     dirname H (ancestor H d p) = ancestor H d p) ->
  (d < fuel)%nat ->
  (exists tok, fst (createId_of ver H fuel options σ) = Ok tok) \/
  (exists e, fst (createId_of ver H fuel options σ) = Throw e).
Proof.
  intros Hroot Hfuel.
  assert (forall p, filename (file σ) = Some p ->
            Package.findPackageRoot H fuel p <> Timeout) as Hwalk.
  { intros p Hp.
    rewrite (findPackageRoot_more_fuel H (S d) fuel p); [| | lia];
      by apply findPackageRoot_enough, Hroot. }
  assert (fst (createId_of ver H fuel options σ) <> Timeout) as Hfin.
  { destruct (JS.truthy (slot σ (VSym ID_STRING))) eqn:Hslot.
    - destruct (createId_of_run H ver fuel options σ) as (objs & r & _ & _ & ->).
      unfold call_shape. rewrite Hslot.
      pose proof (prelude_no_timeout ver (options_of σ options)).
      destruct (prelude ver H (options_of σ options)); [| done | done].
      apply add_counter_no_timeout.
    - destruct ver; cbn [createId_of].
      + rewrite createId_uncached_block by done. cbv zeta.
        destruct (Index.conform H (options_of σ options)) as [[[] | e |] P'] eqn:Hc;
          cbn [fst snd]; [| done | by apply conform_no_timeout in Hc].
        apply block_then_counter_no_timeout. intros p Hp.
        rewrite bind_run. unfold get_prop at 1. cbv beta iota.
        by apply getIdStrFromPath_no_timeout, Hwalk.
      + destruct (legacy_createId_block H fuel options σ)
          as (objs & c & errorPrefix & _ & ->).
        rewrite Hslot.
        pose proof (prelude_no_timeout Plain (options_of σ options)).
        destruct (prelude Plain H (options_of σ options)); [| done | done].
        apply block_then_counter_no_timeout. intros p Hp.
        by apply legacy_getIdStrFromPath_no_timeout, Hwalk. }
  destruct (fst (createId_of ver H fuel options σ)) as [tok | e |]; [left | right |]; eauto.
  done.
Qed.
End Termination.

(** ** The claims at concrete inputs *)

Lemma run_eq {A B} (x : A * B) (a : A) : fst x = a -> x = (a, snd x).
Proof. destruct x. cbn. by intros ->. Defined.

Lemma rootPath_package_version_is_name_witness :
  Index.getIdStrFromPath Inputs.app 0 "/app/lib/index.js" 1%positive (VFun TinyInvariant)
    (Inputs.with_options Inputs.index_js
       {[ "rootPath" := VStr "/app"; "isPackage" := VBool true ]}) =
  (Ok (VStr "package:pkg@pkg:lib/index.js"),
   Inputs.with_options Inputs.index_js
     {[ "rootPath" := VStr "/app"; "isPackage" := VBool true ]}).
Proof.
  apply (rootPath_package_version_is_name Inputs.app 0 "/app/lib/index.js" 1%positive
           TinyInvariant _ "/app"
           (Package.Props (VStr "pkg") (VStr "1.0.0") "/app" "/app/package.json")
           "pkg" "1.0.0"); try reflexivity; discriminate.
Defined.

(** The same input through the exported function: the manifest says version
    1.0.0, the ID string says [pkg@pkg]. *)
Lemma rootPath_package_createId_example :
  Package.readPackageJson Inputs.app "/app" =
    Ok (Some (Package.Props (VStr "pkg") (VStr "1.0.0") "/app" "/app/package.json")) /\
  slot (snd (Index.createId Inputs.app 0 (Some 1%positive)
               (Inputs.with_options Inputs.index_js
                  {[ "rootPath" := VStr "/app/"; "isPackage" := VBool true ]})))
       (VSym ID_STRING) = VStr "package:pkg@pkg:lib/index.js".
Proof. split; vm_compute; reflexivity. Qed.

Lemma idLength_not_positive_throws_witness :
  exists e,
    fst (Index.createId Inputs.app 0 (Some 1%positive)
           (Inputs.with_options Inputs.foo {[ "idLength" := VNum 0 ]})) = Throw e /\
    file (snd (Index.createId Inputs.app 0 (Some 1%positive)
                 (Inputs.with_options Inputs.foo {[ "idLength" := VNum 0 ]}))) = Inputs.foo.
Proof.
  apply (idLength_not_positive_throws Inputs.app 0 1%positive
           (Inputs.with_options Inputs.foo {[ "idLength" := VNum 0 ]}));
    vm_compute; reflexivity.
Defined.

Lemma idLength_42_accepted :
  prop (object_at (Inputs.with_options Inputs.foo {[ "idLength" := VNum 42 ]}) 1%positive)
       "idLength" = VNum 42 /\
  fst (Index.createId Inputs.app 0 (Some 1%positive)
         (Inputs.with_options Inputs.foo {[ "idLength" := VNum 42 ]})) =
    Ok "AcQ5z4SvFOrY9udlC_CpKHHg2yKubl$vi1Q559aaui".
Proof. split; vm_compute; reflexivity. Qed.

(** C3, amended: on the session of the fixture (source [foo();], no file
    name, the default ID length 8) the first call stores the ID string
    [code:qMVaiPhbudnaz91QqECVnbdTvKWnqeultnb/Nt/ybo8=] and returns
    [AcQ5z4Sv], the hash of that string and [:0]; the second call returns
    [Wr4qdHBd], the hash of that string and [:1], another token. *)
Theorem foo_session_tokens (ver : version) (H : host) (fuel : nat) :
  let first := createId_of ver H fuel None (Store ∅ Inputs.foo) in
  let second := createId_of ver H fuel None (snd first) in
  let idStr := "code:qMVaiPhbudnaz91QqECVnbdTvKWnqeultnb/Nt/ybo8=" in
  Hash.sha256Hash "foo();" = "qMVaiPhbudnaz91QqECVnbdTvKWnqeultnb/Nt/ybo8=" /\
  slot (snd first) (VSym ID_STRING) = VStr idStr /\
  fst first = Ok (Hash.shortHash (idStr +:+ ":0") 8) /\
  fst first = Ok "AcQ5z4Sv" /\
  slot (snd second) (VSym ID_STRING) = VStr idStr /\
  fst second = Ok (Hash.shortHash (idStr +:+ ":1") 8) /\
  fst second = Ok "Wr4qdHBd" /\
  String.eqb "AcQ5z4Sv" "Wr4qdHBd" = false.
Proof. destruct ver; vm_compute; repeat split. Qed.

Lemma foo_second_token_differs :
  fst (createId_of Conforming Inputs.app 0 None
         (snd (createId_of Conforming Inputs.app 0 None (Store ∅ Inputs.foo)))) =
    Ok "Wr4qdHBd" /\
  String.eqb "Wr4qdHBd" "CRLVr5wz" = false.
Proof. split; vm_compute; reflexivity. Qed.

Lemma shortHash_identifier_witness :
  1 <= 8 <= 41 /\
  String.length (Hash.shortHash "path:test/foo.js:0" 8) = Z.to_nat 8 /\
  Token.all_chars Token.is_id_char (Hash.shortHash "path:test/foo.js:0" 8) = true /\
  Token.starts_with_digit (Hash.shortHash "path:test/foo.js:0" 8) = false.
Proof. split; [lia | apply shortHash_identifier; lia]. Defined.




Lemma package_pairing_throws_witness :
  exists e,
    fst (Index.createId Inputs.app 0 (Some 1%positive)
           (Inputs.with_options Inputs.foo {[ "packageName" := VStr "pkg" ]})) = Throw e /\
    file (snd (Index.createId Inputs.app 0 (Some 1%positive)
                 (Inputs.with_options Inputs.foo {[ "packageName" := VStr "pkg" ]}))) =
      Inputs.foo.
Proof.
  apply (package_pairing_throws Inputs.app 0 1%positive
           (Inputs.with_options Inputs.foo {[ "packageName" := VStr "pkg" ]})).
  vm_compute. discriminate.
Defined.

Lemma options_unchanged_witness :
  objects (snd (createId_of Conforming Inputs.app 3 (Some 1%positive)
                  (Inputs.with_options Inputs.index_js
                     {[ "rootPath" := VStr "/app/"; "idLength" := VNull ]})))
    !! 1%positive = Some {[ "rootPath" := VStr "/app/"; "idLength" := VNull ]}.
Proof. by apply (options_unchanged Inputs.app Conforming 3 (Some 1%positive)). Defined.

Lemma symbol_counterKey_throws_witness :
  exists e,
    fst (Index.createId Inputs.app 0 (Some 1%positive)
           (Inputs.with_options Inputs.foo {[ "counterKey" := VSym (Sym 7) ]})) = Throw e /\
    file (snd (Index.createId Inputs.app 0 (Some 1%positive)
                 (Inputs.with_options Inputs.foo {[ "counterKey" := VSym (Sym 7) ]}))) =
      Inputs.foo.
Proof.
  by apply (symbol_counterKey_throws Inputs.app 0 1%positive
              (Inputs.with_options Inputs.foo {[ "counterKey" := VSym (Sym 7) ]}) (Sym 7)).
Defined.

(** What the call throws there is the TypeError of the message template. *)
Lemma symbol_counterKey_example :
  fst (Index.createId Inputs.app 0 (Some 1%positive)
         (Inputs.with_options Inputs.foo {[ "counterKey" := VSym (Sym 7) ]})) =
    Throw TypeError.
Proof. vm_compute. reflexivity. Qed.

(** ** The further properties at concrete inputs *)

Lemma findPackageRoot_terminates_witness :
  Package.findPackageRoot Inputs.app 4 "/app/lib/index.js" <> Timeout /\
  forall fuel, (4 <= fuel)%nat ->
    Package.findPackageRoot Inputs.app fuel "/app/lib/index.js" =
    Package.findPackageRoot Inputs.app 4 "/app/lib/index.js".
Proof.
  apply (findPackageRoot_terminates Inputs.app 3 "/app/lib/index.js").
  vm_compute. reflexivity.
Defined.

Lemma conformOptions_normalizes_witness :
  objects (Inputs.with_options Inputs.foo
             {[ "idLength" := VNum 5; "rootPath" := VStr "/app/"; "isPackage" := VNull ]})
    !! 2%positive = None /\
  prop (object_at
          (snd (Index.conformOptions Inputs.app (Some 1%positive)
                  (Inputs.with_options Inputs.foo
                     {[ "idLength" := VNum 5; "rootPath" := VStr "/app/";
                        "isPackage" := VNull ]})))
          2%positive) "counterKey" = VSym ID_COUNTER /\
  forall k,
    prop (object_at
            (snd (Index.conformOptions Inputs.app (Some 1%positive)
                    (Inputs.with_options Inputs.foo
                       {[ "idLength" := VNum 5; "rootPath" := VStr "/app/";
                          "isPackage" := VNull ]})))
            2%positive) k <> VNull.
Proof.
  destruct (conformOptions_normalizes Inputs.app (Some 1%positive)
              (Inputs.with_options Inputs.foo
                 {[ "idLength" := VNum 5; "rootPath" := VStr "/app/"; "isPackage" := VNull ]})
              2%positive
              (snd (Index.conformOptions Inputs.app (Some 1%positive)
                      (Inputs.with_options Inputs.foo
                         {[ "idLength" := VNum 5; "rootPath" := VStr "/app/";
                            "isPackage" := VNull ]}))))
    as (Hnew & _ & _ & _ & Hkey & _ & _ & _ & _ & _ & _ & _ & Hnull).
  - apply run_eq. vm_compute. reflexivity.
  - split; [exact Hnew |]. split; [exact Hkey | exact Hnull].
Defined.

Lemma rootPath_separator_trimmed_witness :
  prop (object_at
          (snd (Index.conformOptions Inputs.app (Some 1%positive)
                  (Inputs.with_options Inputs.foo {[ "rootPath" := VStr "/app/" ]})))
          2%positive) "rootPath" = VStr "/app".
Proof.
  destruct (rootPath_separator_trimmed Inputs.app (Some 1%positive)
              (Inputs.with_options Inputs.foo {[ "rootPath" := VStr "/app/" ]})
              2%positive
              (snd (Index.conformOptions Inputs.app (Some 1%positive)
                      (Inputs.with_options Inputs.foo {[ "rootPath" := VStr "/app/" ]})))
              "/"%char) as (Htrim & _).
  - reflexivity.
  - apply run_eq. vm_compute. reflexivity.
  - apply (Htrim "/app"); [discriminate | vm_compute; reflexivity].
Defined.


Lemma getIdStrFromPath_explicit_root_witness :
  Index.getIdStrFromPath Inputs.app 0 "/app/lib/index.js" 1%positive (VFun TinyInvariant)
    (Inputs.with_options Inputs.index_js {[ "rootPath" := VStr "/app" ]}) =
  (Ok (VStr "path:lib/index.js"),
   Inputs.with_options Inputs.index_js {[ "rootPath" := VStr "/app" ]}).
Proof.
  destruct (getIdStrFromPath_explicit_root Inputs.app 0 "/app/lib/index.js" 1%positive
              (VFun TinyInvariant)
              (Inputs.with_options Inputs.index_js {[ "rootPath" := VStr "/app" ]})
              "/app") as [Hpath _].
  - vm_compute. reflexivity.
  - discriminate.
  - apply Hpath; vm_compute; reflexivity.
Defined.

Lemma rootPath_without_manifest_throws_witness :
  Index.getIdStrFromPath Inputs.app 0 "/esm/lib/index.js" 1%positive (VFun TinyInvariant)
    (Inputs.with_options Inputs.index_js
       {[ "rootPath" := VStr "/esm"; "isPackage" := VBool true ]}) =
  (Throw TypeError,
   Inputs.with_options Inputs.index_js
     {[ "rootPath" := VStr "/esm"; "isPackage" := VBool true ]}).
Proof.
  apply (rootPath_without_manifest_throws Inputs.app 0 "/esm/lib/index.js" 1%positive
           TinyInvariant _ "/esm"); try (vm_compute; reflexivity). discriminate.
Defined.

Lemma getIdStrFromPath_walk_witness :
  Index.getIdStrFromPath Inputs.app 3 "/app/lib/index.js" 1%positive (VFun TinyInvariant)
    (Inputs.with_options Inputs.index_js ∅) =
  (Ok (VStr "path:lib/index.js"), Inputs.with_options Inputs.index_js ∅).
Proof.
  destruct (getIdStrFromPath_walk Inputs.app 3 "/app/lib/index.js" 1%positive
              TinyInvariant (Inputs.with_options Inputs.index_js ∅))
    as (_ & _ & Hfound & _).
  - vm_compute. reflexivity.
  - apply (Hfound (Package.Props (VStr "pkg") (VStr "1.0.0") "/app" "/app/package.json"));
      vm_compute; reflexivity.
Defined.

Lemma other_slots_kept_witness :
  slot (snd (createId_of Conforming Inputs.app 0 None
               (set_slot (Store ∅ Inputs.foo) (VSym (Sym 7)) (VNum 5))))
       (VSym (Sym 7)) =
    slot (set_slot (Store ∅ Inputs.foo) (VSym (Sym 7)) (VNum 5)) (VSym (Sym 7)) /\
  filename (file (snd (createId_of Conforming Inputs.app 0 None
                         (set_slot (Store ∅ Inputs.foo) (VSym (Sym 7)) (VNum 5))))) =
    filename (file (set_slot (Store ∅ Inputs.foo) (VSym (Sym 7)) (VNum 5))) /\
  code (file (snd (createId_of Conforming Inputs.app 0 None
                     (set_slot (Store ∅ Inputs.foo) (VSym (Sym 7)) (VNum 5))))) =
    code (file (set_slot (Store ∅ Inputs.foo) (VSym (Sym 7)) (VNum 5))).
Proof.
  apply (other_slots_kept Inputs.app Conforming 0 None
           (set_slot (Store ∅ Inputs.foo) (VSym (Sym 7)) (VNum 5)) (VSym (Sym 7)));
    vm_compute; discriminate.
Defined.

Lemma createId_token_witness :
  Token.all_chars Token.is_id_char "AcQ5z4Sv" = true /\
  Token.starts_with_digit "AcQ5z4Sv" = false /\
  exists len,
    (0 <= len -> String.length "AcQ5z4Sv" = Z.to_nat (Z.min len 43)) /\
    0 < len /\
    (if supplied (options_of (Store ∅ Inputs.foo) None) "idLength"
     then prop (options_of (Store ∅ Inputs.foo) None) "idLength" = VNum len
     else len = Index.DEFAULT_ID_LEN).
Proof.
  apply (createId_token Inputs.app Conforming 0 None (Store ∅ Inputs.foo) "AcQ5z4Sv"
           (snd (createId_of Conforming Inputs.app 0 None (Store ∅ Inputs.foo)))).
  apply run_eq. vm_compute. reflexivity.
Defined.


Lemma rootPath_relative_id_witness :
  exists root,
    trimmed_root "/" (VStr "/app/") = VStr root /\
    slot (snd (Index.createId Inputs.app 0 (Some 1%positive)
                 (Inputs.with_options Inputs.index_js {[ "rootPath" := VStr "/app/" ]})))
         (VSym ID_STRING) =
      VStr ("path:" +:+ posix_relative_path Inputs.app root "/app/lib/index.js").
Proof.
  apply (rootPath_relative_id Inputs.app 0 (Some 1%positive)
           (Inputs.with_options Inputs.index_js {[ "rootPath" := VStr "/app/" ]})
           "CI7FWk_7"
           (snd (Index.createId Inputs.app 0 (Some 1%positive)
                   (Inputs.with_options Inputs.index_js {[ "rootPath" := VStr "/app/" ]})))
           "/app/lib/index.js" "/app/"); try (vm_compute; reflexivity).
  discriminate.
Defined.

Lemma walk_id_string_witness :
  (Package.findPackageRoot Inputs.app 3 "/app/lib/index.js" = Ok None /\
   slot (snd (Index.createId Inputs.app 3 None (Store ∅ Inputs.index_js))) (VSym ID_STRING) =
     VStr ("code:" +:+ Hash.sha256Hash (code (file (Store ∅ Inputs.index_js))))) \/
  (exists pkg, Package.findPackageRoot Inputs.app 3 "/app/lib/index.js" = Ok (Some pkg) /\
   slot (snd (Index.createId Inputs.app 3 None (Store ∅ Inputs.index_js))) (VSym ID_STRING) =
     VStr ("path:" +:+ posix_relative_path Inputs.app (Package.path pkg) "/app/lib/index.js")).
Proof.
  apply (walk_id_string Inputs.app 3 None (Store ∅ Inputs.index_js) "CI7FWk_7"
           (snd (Index.createId Inputs.app 3 None (Store ∅ Inputs.index_js)))
           "/app/lib/index.js"); try (vm_compute; reflexivity).
  discriminate.
Defined.

Lemma createId_terminates_witness :
  (exists tok, fst (createId_of Conforming Inputs.app 4 None (Store ∅ Inputs.index_js)) =
                 Ok tok) \/
  (exists e, fst (createId_of Conforming Inputs.app 4 None (Store ∅ Inputs.index_js)) =
               Throw e).
Proof.
  apply (createId_terminates Inputs.app Conforming 3 4 None (Store ∅ Inputs.index_js)).
  - intros p [= <-]. vm_compute. reflexivity.
  - lia.
Defined.

Lemma relative_path_posix_style_witness :
  posix_relative_path
    (Host "\" (fun p => p) (fun a b => a +:+ "\" +:+ b) (fun _ _ => "lib\index.js")
       (fun _ => ReadError "ENOENT") (fun _ => None) (fun _ => 0))
    "C:\app" "C:\app\lib\index.js" =
  posix_relative_path Inputs.app "/app" "/app/lib/index.js".
Proof.
  destruct (relative_path_posix_style
              (Host "\" (fun p => p) (fun a b => a +:+ "\" +:+ b) (fun _ _ => "lib\index.js")
                 (fun _ => ReadError "ENOENT") (fun _ => None) (fun _ => 0))
              "C:\app" "C:\app\lib\index.js" eq_refl) as [_ Hsame].
  apply Hsame; reflexivity.
Defined.
